(** * Circle-follow behaviour of [week2/custom_behavior_methods.py]

    A shallow embedding of the two Python functions of the module,
    [beh_diff_circle_follow] and [CircleFollow], and the properties of the
    control law.

    Numbers.  The program computes with float64.  The embedding takes the
    usual idealisation of a control law: every number is a real number of
    [R], [np.tanh] is the hyperbolic tangent of the Standard Library and
    [np.arctan2] the two-argument arc tangent.  Rounding, NaN, infinities
    and signed zeros are outside this model.

    Where rounding or the sign of a zero decides a property, module
    [Float64] gives [CircleFollow] a second time, on finite floats: a
    float is its value and, for a zero, its sign; every operation rounds
    its exact result to the nearest float, ties to even ([Binary64.round]);
    [np.tanh] and [np.arctan2] return the float nearest to the exact
    value.  Overflow, NaN and the infinities are outside this model too.

    Arrays.  A 2-D numpy array is the list of its rows; the result of
    [np.array] on a keyword argument is a 0-d or a 1-d array.  Operations
    that raise in Python ([ValueError] of an unpacking or of a broadcast,
    [IndexError] of an index) return [Raise] in the error monad [result].

    [WrapToPi] is imported by the module from the simulator library and is
    not part of it: the embedding takes it as a parameter, and module
    [Irsim] gives the library's loop as an instance.  The decorator
    [register_behavior] only files the function under a name and leaves it
    as it is. *)

From Stdlib Require Import Reals Lra Lia ZArith.
From stdpp Require Import base option list strings gmap.

Open Scope R_scope.

(** ** Python exceptions as an error monad *)

Inductive pyexn : Type :=
| ValueError
| IndexError.

Inductive result (A : Type) : Type :=
| Ok (a : A)
| Raise (e : pyexn).

Arguments Ok {A} a.
Arguments Raise {A} e.

Definition bind {A B : Type} (r : result A) (k : A -> result B) : result B :=
  match r with
  | Ok a => k a
  | Raise e => Raise e
  end.

Notation "'do' x <~ e ; k" := (bind e (fun x => k))
  (at level 10, x name, e at level 100, k at level 200).
Notation "'do' ' p <~ e ; k" := (bind e (fun x => match x with p => k end))
  (at level 10, p pattern, e at level 100, k at level 200).

(** ** Arrays *)

(** A 2-D array, row by row: [state] is 3x1, [max_vel] is 2x1. *)
Definition matrix : Type := list (list R).

(** The value of a keyword argument: a float or a list of floats. *)
Inductive pyval : Type :=
| PyFloat (r : R)
| PyList (l : list R).

(** What [np.array] makes of it: a 0-d or a 1-d array. *)
Inductive ndarray : Type :=
| Scalar (r : R)
| Vector (l : list R).

Definition np_array (v : pyval) : ndarray :=
  match v with
  | PyFloat r => Scalar r
  | PyList l => Vector l
  end.

(** [a.flatten()]: the entries in row-major order. *)
Definition flatten (a : matrix) : list R := concat a.

(** [a.shape] of a 2-D array with rows of one length. *)
Definition shape (a : matrix) : nat * nat :=
  (length a, match a with [] => 0%nat | row :: _ => length row end).

(** [x, y, theta = l]: unpacking wants exactly three values. *)
Definition unpack3 (l : list R) : result (R * R * R) :=
  match l with
  | [x; y; theta] => Ok (x, y, theta)
  | _ => Raise ValueError
  end.

(** [v[i]] on a 1-d array. *)
Definition getitem (v : list R) (i : nat) : result R :=
  match v !! i with
  | Some r => Ok r
  | None => Raise IndexError
  end.

(** [a[i, j]] on a 2-D array. *)
Definition getitem2 (a : matrix) (i j : nat) : result R :=
  match a !! i with
  | Some row => getitem row j
  | None => Raise IndexError
  end.

(** [a - b] for a 0-d or 1-d [a] and a 1-d [b], with numpy's broadcasting:
    equal lengths subtract entry by entry, a length of one is stretched,
    any other pair of lengths raises. *)
Definition broadcast_sub (a : ndarray) (b : list R) : result (list R) :=
  match a with
  | Scalar r => Ok (map (fun bi => r - bi) b)
  | Vector l =>
      if decide (length l = length b) then Ok (zip_with Rminus l b)
      else match l, b with
           | [a0], _ => Ok (map (fun bi => a0 - bi) b)
           | _, [b0] => Ok (map (fun ai => ai - b0) l)
           | _, _ => Raise ValueError
           end
  end.

(** The arrays that broadcast against a pair: a 0-d array, and a 1-d array
    of one or two entries. *)
Definition pairable (a : ndarray) : Prop :=
  match a with
  | Scalar _ => True
  | Vector l => length l = 1%nat \/ length l = 2%nat
  end.

(** [np.linalg.norm] of a 1-d array: the Euclidean norm. *)
Definition norm (v : list R) : R :=
  sqrt (foldr (fun vi acc => vi * vi + acc) 0 v).

(** ** Scalar functions *)

(** [np.arctan2(y, x)]: the angle of the point [(x, y)], in [(-pi, pi]],
    and [0] at the origin. *)
Definition arctan2 (y x : R) : R :=
  if Rlt_dec 0 x then atan (y / x)
  else if Rlt_dec x 0 then
    if Rle_dec 0 y then atan (y / x) + PI else atan (y / x) - PI
  else if Rlt_dec 0 y then PI / 2
  else if Rlt_dec y 0 then - (PI / 2)
  else 0.

(** Python's built-in [max(a, b)]: [b] replaces [a] only when [b > a]. *)
Definition py_max (a b : R) : R :=
  if Rlt_dec a b then b else a.

(** ** The module *)

(** What the behaviour reads of the robot: [ego_object.state] and
    [ego_object.get_vel_range()], a pair (minimum, maximum). *)
Class EgoObject (O : Type) : Type := {
  state : O -> matrix;
  get_vel_range : O -> matrix * matrix
}.

Section CircleFollowLaw.

(** [from irsim.util.util import WrapToPi] *)
Variable WrapToPi : R -> R.

(** [def CircleFollow(state, max_vel, center, radius)] *)
Definition CircleFollow (state max_vel : matrix) (center : ndarray)
    (radius : pyval) : result matrix :=
  do '(x, y, theta) <~ unpack3 (flatten state);
  do vec_to_center <~ broadcast_sub center [x; y];
  let distance := norm vec_to_center in
  do v1 <~ getitem vec_to_center 1;
  do v0 <~ getitem vec_to_center 0;
  let angle_to_center := arctan2 v1 v0 in
  let tangential_angle := angle_to_center + PI / 2 in
  let angle_diff := WrapToPi (tangential_angle - theta) in
  do m00 <~ getitem2 max_vel 0 0;
  let linear_speed := py_max 0.1 (m00 * 0.5) in
  do m10 <~ getitem2 max_vel 1 0;
  let angular_speed := m10 * tanh (2 * angle_diff) in
  Ok [[linear_speed]; [angular_speed]].

(** [def beh_diff_circle_follow(ego_object, external_objects=None, **kwargs)];
    [None] for an omitted [external_objects], a finite map for [kwargs]. *)
Definition beh_diff_circle_follow {O X : Type} `{EgoObject O}
    (ego_object : O) (external_objects : option (list X))
    (kwargs : gmap string pyval) : result matrix :=
  let external_objects :=
    match external_objects with
    | None => []
    | Some l => l
    end in
  let state := state ego_object in
  let max_vel := (get_vel_range ego_object).2 in
  let CENTER := np_array (default (PyList [5.0; 5.0]) (kwargs !! "center")) in
  let RADIUS := default (PyFloat 2.0) (kwargs !! "radius") in
  CircleFollow state max_vel CENTER RADIUS.

(** The wrapped difference between the counter-clockwise tangent at the
    robot, [arctan2] of the vector to the centre plus a quarter turn, and
    the heading: the [angle_diff] of [CircleFollow] for the centre
    [(cx, cy)] and the pose [(x, y, theta)]. *)
Definition tangent_error (cx cy x y theta : R) : R :=
  WrapToPi (arctan2 (cy - y) (cx - x) + PI / 2 - theta).

End CircleFollowLaw.

(** ** The library's [WrapToPi]

    The simulator library wraps an angle with two loops,
    [while rad > pi: rad = rad - 2 * pi] and
    [while rad < -pi: rad = rad + 2 * pi].  Each loop is a function with
    fuel, and [WrapToPi] runs both with fuel enough for its argument
    (lemmas [WrapToPi_range] and [WrapToPi_fuel] below). *)
Module Irsim.

Fixpoint wrap_down (fuel : nat) (rad : R) : R :=
  match fuel with
  | O => rad
  | S n => if Rlt_dec PI rad then wrap_down n (rad - 2 * PI) else rad
  end.

Fixpoint wrap_up (fuel : nat) (rad : R) : R :=
  match fuel with
  | O => rad
  | S n => if Rlt_dec rad (- PI) then wrap_up n (rad + 2 * PI) else rad
  end.

Definition wrap_fuel (rad : R) : nat :=
  Z.to_nat (up (Rabs rad / (2 * PI))).

Definition WrapToPi (rad : R) : R :=
  let fuel := wrap_fuel rad in
  wrap_up fuel (wrap_down fuel rad).

End Irsim.

(** ** Robots *)

(** A robot that is nothing but its state and its velocity range. *)
Record robot : Type := Robot {
  robot_state : matrix;
  robot_vel_range : matrix * matrix
}.

#[export] Instance robot_ego : EgoObject robot := {
  state := robot_state;
  get_vel_range := robot_vel_range
}.

(** A robot that carries more than the behaviour reads. *)
Record named_robot : Type := NamedRobot {
  nr_name : string;
  nr_robot : robot
}.

#[export] Instance named_robot_ego : EgoObject named_robot := {
  state r := robot_state (nr_robot r);
  get_vel_range r := robot_vel_range (nr_robot r)
}.

(** ** Float64

    The definitions above compute with exact reals.  What follows keeps
    two things of float64 that exact reals lose: every result is rounded to
    the nearest float, ties to even, and a zero has a sign.  Overflow, NaN
    and the infinities stay outside. *)
Module Binary64.

Definition pow2 (k : Z) : R := powerRZ 2 k.

(** The position of the leading bit: [2^(mag x - 1) <= |x| < 2^(mag x)]. *)
Definition mag (x : R) : Z := (Zfloor (ln (Rabs x) / ln 2) + 1)%Z.

(** The exponent of the unit in the last place: 53 bits of significand,
    and no exponent below that of the subnormal numbers. *)
Definition ulp_exp (x : R) : Z := (Z.max (mag x) (-1021) - 53)%Z.

(** The nearest integer, the even one of two that are equally near. *)
Definition rne (x : R) : Z :=
  let f := Zfloor x in
  if Rlt_dec (x - IZR f) (1 / 2) then f
  else if Rlt_dec (1 / 2) (x - IZR f) then (f + 1)%Z
  else if Z.even f then f else (f + 1)%Z.

(** The float nearest to [x]. *)
Definition round (x : R) : R :=
  IZR (rne (x * pow2 (- ulp_exp x))) * pow2 (ulp_exp x).

End Binary64.

Module Float64.

Import Binary64.

(** A finite float: its value, and the sign when it is a zero. *)
Inductive f64 : Type :=
| NegZero
| Num (r : R).

Definition val (a : f64) : R :=
  match a with
  | NegZero => 0
  | Num r => r
  end.

Definition signbit (a : f64) : bool :=
  match a with
  | NegZero => true
  | Num r => if Rlt_dec r 0 then true else false
  end.

(** The float of an exact result that is not zero; one that rounds to zero
    keeps its sign. *)
Definition of_exact (z : R) : f64 :=
  if Req_dec_T (round z) 0 then (if Rlt_dec z 0 then NegZero else Num 0)
  else Num (round z).

(** [a - b]: a difference that is exactly zero is [+0.0], but for
    [-0.0 - 0.0], which is [-0.0]. *)
Definition sub (a b : f64) : f64 :=
  if Req_dec_T (val a) (val b) then
    match a, b with
    | NegZero, Num _ => NegZero
    | _, _ => Num 0
    end
  else of_exact (val a - val b).

(** The arrays, on floats. *)
Inductive ndarray : Type :=
| Scalar (a : f64)
| Vector (l : list f64).

Definition unpack3 (l : list f64) : result (f64 * f64 * f64) :=
  match l with
  | [x; y; theta] => Ok (x, y, theta)
  | _ => Raise ValueError
  end.

Definition getitem (v : list f64) (i : nat) : result f64 :=
  match v !! i with
  | Some r => Ok r
  | None => Raise IndexError
  end.

Definition getitem2 (a : list (list f64)) (i j : nat) : result f64 :=
  match a !! i with
  | Some row => getitem row j
  | None => Raise IndexError
  end.

Definition broadcast_sub (a : ndarray) (b : list f64) : result (list f64) :=
  match a with
  | Scalar r => Ok (map (fun bi => sub r bi) b)
  | Vector l =>
      if decide (length l = length b) then Ok (zip_with sub l b)
      else match l, b with
           | [a0], _ => Ok (map (fun bi => sub a0 bi) b)
           | _, [b0] => Ok (map (fun ai => sub ai b0) l)
           | _, _ => Raise ValueError
           end
  end.

Definition norm (v : list f64) : R :=
  round (sqrt (foldr (fun vi acc => round (round (val vi * val vi) + acc))
                 0 v)).

(** [np.arctan2(y, x)] before rounding.  At a zero the sign decides:
    [arctan2(+-0, +0) = +-0], [arctan2(+0, -0) = pi],
    [arctan2(-0, -0) = -pi], and left of the origin a [-0.0] is below the
    axis. *)
Definition arctan2 (y x : f64) : R :=
  if Rlt_dec 0 (val x) then atan (val y / val x)
  else if Rlt_dec (val x) 0 then
    if signbit y then atan (val y / val x) - PI
    else atan (val y / val x) + PI
  else if Rlt_dec 0 (val y) then PI / 2
  else if Rlt_dec (val y) 0 then - (PI / 2)
  else match x with
       | Num _ => 0
       | NegZero => if signbit y then - PI else PI
       end.

(** [np.pi], the float nearest to pi. *)
Definition np_pi : R := round PI.

Section CircleFollowLaw.

Variable WrapToPi : R -> R.

(** [CircleFollow] with every operation rounded; [np.tanh] and
    [np.arctan2] give the float nearest to the exact value, and the
    literals [0.1] and [0.5] are the floats nearest to them.  The result
    is given by the values of its entries. *)
Definition CircleFollow (state max_vel : list (list f64)) (center : ndarray)
    (radius : pyval) : result matrix :=
  do '(x, y, theta) <~ unpack3 (concat state);
  do vec_to_center <~ broadcast_sub center [x; y];
  let distance := norm vec_to_center in
  do v1 <~ getitem vec_to_center 1;
  do v0 <~ getitem vec_to_center 0;
  let angle_to_center := round (arctan2 v1 v0) in
  let tangential_angle := round (angle_to_center + round (np_pi / 2)) in
  let angle_diff := WrapToPi (round (tangential_angle - val theta)) in
  do m00 <~ getitem2 max_vel 0 0;
  let linear_speed := py_max (round 0.1) (round (val m00 * round 0.5)) in
  do m10 <~ getitem2 max_vel 1 0;
  let angular_speed :=
    round (val m10 * round (tanh (round (2 * angle_diff)))) in
  Ok [[linear_speed]; [angular_speed]].

(** The [tangential_angle] and the [angle_diff] of [CircleFollow] for the
    centre [(cx, cy)] and the pose [(x, y, theta)]. *)
Definition tangential_angle (cx cy x y : f64) : R :=
  round (round (arctan2 (sub cy y) (sub cx x)) + round (np_pi / 2)).

Definition tangent_error (cx cy x y theta : f64) : R :=
  WrapToPi (round (tangential_angle cx cy x y - val theta)).

End CircleFollowLaw.

End Float64.

(** ** Facts on the scalar functions *)

Lemma py_max_Rmax a b : py_max a b = Rmax a b.
Proof.
  unfold py_max, Rmax.
  destruct (Rlt_dec a b), (Rle_dec a b); lra.
Qed.

Lemma tanh_exp x :
  tanh x = (exp x * exp x - 1) / (exp x * exp x + 1).
Proof.
  unfold tanh, sinh, cosh. rewrite exp_Ropp.
  pose proof (exp_pos x) as He.
  field. split; nra.
Qed.

Lemma tanh_0 : tanh 0 = 0.
Proof. rewrite tanh_exp, exp_0. field. Qed.

Lemma tanh_increasing x y : x < y -> tanh x < tanh y.
Proof.
  intros Hxy. rewrite !tanh_exp.
  pose proof (exp_pos x) as Hx. pose proof (exp_pos y) as Hy.
  pose proof (exp_increasing _ _ Hxy) as Hlt.
  set (a := exp x) in *. set (b := exp y) in *.
  assert (Ha : 0 < a * a + 1) by nra.
  assert (Hb : 0 < b * b + 1) by nra.
  apply (Rmult_lt_reg_r ((a * a + 1) * (b * b + 1))); [nra|].
  replace ((a * a - 1) / (a * a + 1) * ((a * a + 1) * (b * b + 1)))
    with ((a * a - 1) * (b * b + 1)) by (field; lra).
  replace ((b * b - 1) / (b * b + 1) * ((a * a + 1) * (b * b + 1)))
    with ((b * b - 1) * (a * a + 1)) by (field; lra).
  nra.
Qed.

Lemma tanh_bounds x : -1 < tanh x < 1.
Proof.
  rewrite tanh_exp. pose proof (exp_pos x) as Hx.
  set (a := exp x) in *.
  assert (Ha : 0 < a * a + 1) by nra.
  split.
  - apply (Rmult_lt_reg_r (a * a + 1)); [lra|].
    replace ((a * a - 1) / (a * a + 1) * (a * a + 1)) with (a * a - 1)
      by (field; lra). nra.
  - apply (Rmult_lt_reg_r (a * a + 1)); [lra|].
    replace ((a * a - 1) / (a * a + 1) * (a * a + 1)) with (a * a - 1)
      by (field; lra). nra.
Qed.

Lemma tanh_pos x : 0 < x <-> 0 < tanh x.
Proof.
  split; intros H.
  - rewrite <- tanh_0. by apply tanh_increasing.
  - destruct (Rlt_le_dec 0 x) as [|Hle]; [done|].
    destruct Hle as [Hlt| ->].
    + apply tanh_increasing in Hlt. rewrite tanh_0 in Hlt. lra.
    + rewrite tanh_0 in H. lra.
Qed.

Lemma tanh_neg x : x < 0 <-> tanh x < 0.
Proof.
  split; intros H.
  - rewrite <- tanh_0. by apply tanh_increasing.
  - destruct (Rlt_le_dec x 0) as [|Hle]; [done|].
    destruct Hle as [Hlt| <-].
    + apply tanh_increasing in Hlt. rewrite tanh_0 in Hlt. lra.
    + rewrite tanh_0 in H. lra.
Qed.

Lemma tanh_zero x : x = 0 <-> tanh x = 0.
Proof.
  split; [intros ->; apply tanh_0|].
  intros H. destruct (Rtotal_order x 0) as [Hlt|[->|Hgt]]; [|done|].
  - apply tanh_neg in Hlt. lra.
  - apply tanh_pos in Hgt. lra.
Qed.

Lemma tanh_opp x : tanh (- x) = - tanh x.
Proof.
  unfold tanh, sinh, cosh. rewrite Ropp_involutive.
  pose proof (exp_pos x). pose proof (exp_pos (- x)).
  field. lra.
Qed.

(** ** The wrapping loops terminate *)

Section WrapLoops.

Import Irsim.

(** Fuel [n] lets the first loop leave every angle up to [PI + 2 * PI * n]
    at or below [PI]. *)
Lemma wrap_down_exit n : forall rad,
  rad <= PI + 2 * PI * INR n -> wrap_down n rad <= PI.
Proof.
  induction n as [|n IH]; intros rad Hrad.
  - simpl in *. lra.
  - cbn [wrap_down]. destruct (Rlt_dec PI rad); [|lra].
    apply IH. rewrite S_INR in Hrad. lra.
Qed.

Lemma wrap_down_id n rad : rad <= PI -> wrap_down n rad = rad.
Proof.
  intros H. destruct n; [done|]. cbn [wrap_down].
  destruct (Rlt_dec PI rad); [lra|done].
Qed.

Lemma wrap_down_lower n : forall rad, PI < rad -> - PI < wrap_down n rad.
Proof.
  pose proof PI_RGT_0.
  induction n as [|n IH]; intros rad Hrad; cbn [wrap_down]; [lra|].
  destruct (Rlt_dec PI rad) as [_|]; [|lra].
  destruct (Rlt_dec PI (rad - 2 * PI)); [by apply IH|].
  rewrite wrap_down_id; lra.
Qed.

Lemma wrap_up_exit n : forall rad,
  - PI - 2 * PI * INR n <= rad -> - PI <= wrap_up n rad.
Proof.
  induction n as [|n IH]; intros rad Hrad.
  - simpl in *. lra.
  - cbn [wrap_up]. destruct (Rlt_dec rad (- PI)); [|lra].
    apply IH. rewrite S_INR in Hrad. lra.
Qed.

Lemma wrap_up_id n rad : - PI <= rad -> wrap_up n rad = rad.
Proof.
  intros H. destruct n; [done|]. cbn [wrap_up].
  destruct (Rlt_dec rad (- PI)); [lra|done].
Qed.

Lemma wrap_up_upper n : forall rad, rad < - PI -> wrap_up n rad < PI.
Proof.
  pose proof PI_RGT_0.
  induction n as [|n IH]; intros rad Hrad; cbn [wrap_up]; [lra|].
  destruct (Rlt_dec rad (- PI)) as [_|]; [|lra].
  destruct (Rlt_dec (rad + 2 * PI) (- PI)); [by apply IH|].
  rewrite wrap_up_id; lra.
Qed.

Lemma wrap_down_turns n : forall rad,
  exists k : Z, wrap_down n rad = rad + 2 * PI * IZR k.
Proof.
  induction n as [|n IH]; intros rad; cbn [wrap_down].
  - exists 0%Z. lra.
  - destruct (Rlt_dec PI rad); [|exists 0%Z; lra].
    destruct (IH (rad - 2 * PI)) as [k ->].
    exists (k - 1)%Z. rewrite minus_IZR. lra.
Qed.

Lemma wrap_up_turns n : forall rad,
  exists k : Z, wrap_up n rad = rad + 2 * PI * IZR k.
Proof.
  induction n as [|n IH]; intros rad; cbn [wrap_up].
  - exists 0%Z. lra.
  - destruct (Rlt_dec rad (- PI)); [|exists 0%Z; lra].
    destruct (IH (rad + 2 * PI)) as [k ->].
    exists (k + 1)%Z. rewrite plus_IZR. lra.
Qed.

Lemma wrap_fuel_enough rad : Rabs rad < 2 * PI * INR (wrap_fuel rad).
Proof.
  pose proof PI_RGT_0 as Hpi.
  unfold wrap_fuel.
  destruct (archimed (Rabs rad / (2 * PI))) as [Hup _].
  assert (Hq : 0 <= Rabs rad / (2 * PI)).
  { apply Rmult_le_pos; [apply Rabs_pos|]. apply Rlt_le, Rinv_0_lt_compat. lra. }
  assert (Hz : (0 <= up (Rabs rad / (2 * PI)))%Z).
  { apply le_IZR. lra. }
  rewrite INR_IZR_INZ, Z2Nat.id by done.
  apply (Rmult_lt_compat_r (2 * PI)) in Hup; [|lra].
  replace (Rabs rad / (2 * PI) * (2 * PI)) with (Rabs rad) in Hup
    by (field; lra).
  lra.
Qed.

(** A loop that has reached its exit ignores the fuel that is left. *)
Lemma wrap_down_more n : forall m rad,
  rad <= PI + 2 * PI * INR n -> (n <= m)%nat ->
  wrap_down m rad = wrap_down n rad.
Proof.
  induction n as [|n IH]; intros m rad Hrad Hnm.
  - simpl in Hrad. rewrite wrap_down_id by lra. done.
  - destruct m as [|m]; [lia|]. cbn [wrap_down].
    destruct (Rlt_dec PI rad); [|done].
    apply IH; [|lia]. rewrite S_INR in Hrad. lra.
Qed.

Lemma wrap_up_more n : forall m rad,
  - PI - 2 * PI * INR n <= rad -> (n <= m)%nat ->
  wrap_up m rad = wrap_up n rad.
Proof.
  induction n as [|n IH]; intros m rad Hrad Hnm.
  - simpl in Hrad. rewrite wrap_up_id by lra. done.
  - destruct m as [|m]; [lia|]. cbn [wrap_up].
    destruct (Rlt_dec rad (- PI)); [|done].
    apply IH; [|lia]. rewrite S_INR in Hrad. lra.
Qed.

Lemma WrapToPi_range rad : - PI <= WrapToPi rad <= PI.
Proof.
  pose proof PI_RGT_0 as Hpi.
  pose proof (wrap_fuel_enough rad) as Hf.
  unfold WrapToPi. cbv zeta. set (n := wrap_fuel rad) in *.
  assert (Habs : - Rabs rad <= rad <= Rabs rad).
  { split; [pose proof (Rle_abs (- rad)) as H; rewrite Rabs_Ropp in H; lra
           | apply Rle_abs]. }
  assert (Hd : wrap_down n rad <= PI) by (apply wrap_down_exit; lra).
  split.
  - apply wrap_up_exit.
    destruct (Rlt_dec PI rad) as [Hgt|Hle].
    + pose proof (wrap_down_lower n rad Hgt).
      assert (0 <= INR n) by apply pos_INR. nra.
    + rewrite wrap_down_id by lra. lra.
  - destruct (Rlt_dec (wrap_down n rad) (- PI)) as [Hlt|Hge].
    + apply Rlt_le, wrap_up_upper, Hlt.
    + rewrite wrap_up_id by lra. done.
Qed.

Lemma WrapToPi_fuel rad m :
  (wrap_fuel rad <= m)%nat ->
  wrap_up m (wrap_down m rad) = WrapToPi rad.
Proof.
  intros Hm.
  pose proof PI_RGT_0 as Hpi.
  pose proof (wrap_fuel_enough rad) as Hf.
  unfold WrapToPi. cbv zeta. set (n := wrap_fuel rad) in *.
  assert (Habs : - Rabs rad <= rad <= Rabs rad).
  { split; [pose proof (Rle_abs (- rad)) as H; rewrite Rabs_Ropp in H; lra
           | apply Rle_abs]. }
  rewrite (wrap_down_more n m) by (done || lra).
  apply wrap_up_more; [|done].
  destruct (Rlt_dec PI rad) as [Hgt|Hle].
  - pose proof (wrap_down_lower n rad Hgt).
    assert (0 <= INR n) by apply pos_INR. nra.
  - rewrite wrap_down_id by lra. lra.
Qed.

Lemma WrapToPi_turns rad :
  exists k : Z, WrapToPi rad = rad + 2 * PI * IZR k.
Proof.
  unfold WrapToPi. cbv zeta.
  destruct (wrap_down_turns (wrap_fuel rad) rad) as [k1 H1].
  destruct (wrap_up_turns (wrap_fuel rad) (wrap_down (wrap_fuel rad) rad))
    as [k2 H2].
  exists (k1 + k2)%Z. rewrite H2, H1, plus_IZR. lra.
Qed.

Lemma WrapToPi_id rad : - PI <= rad <= PI -> WrapToPi rad = rad.
Proof.
  intros [Hlo Hhi]. unfold WrapToPi. cbv zeta.
  rewrite wrap_down_id by done. by apply wrap_up_id.
Qed.

End WrapLoops.

(** ** Facts on the arrays *)

(** A broadcast against two values, when it succeeds, has two entries. *)
Lemma broadcast_sub_pair a x y v :
  broadcast_sub a [x; y] = Ok v -> length v = 2%nat.
Proof.
  destruct a as [r|l]; cbn [broadcast_sub].
  - intros [= <-]. done.
  - destruct (decide (length l = length [x; y])) as [Hl|Hl].
    + intros [= <-]. rewrite length_zip_with, Hl. done.
    + destruct l as [|a0 [|a1 l]]; [done| |done].
      intros [= <-]. done.
Qed.

Lemma broadcast_sub_point cx cy x y :
  broadcast_sub (Vector [cx; cy]) [x; y] = Ok [cx - x; cy - y].
Proof. reflexivity. Qed.

Lemma norm_origin : norm [0; 0] = 0.
Proof.
  unfold norm. cbn [foldr].
  replace (0 * 0 + (0 * 0 + 0)) with 0 by lra. apply sqrt_0.
Qed.

Lemma arctan2_origin : arctan2 0 0 = 0.
Proof.
  unfold arctan2.
  destruct (Rlt_dec 0 0) as [H|_]; [lra|done].
Qed.

(** ** The control law *)

Section CircleFollowFacts.

Variable WrapToPi : R -> R.

(** What [CircleFollow] computes on arrays of any shape that pass its
    unpacking, its broadcast and its two indexings. *)
Lemma CircleFollow_spec st max_vel center radius x y theta v0 v1 m00 m10 :
  flatten st = [x; y; theta] ->
  broadcast_sub center [x; y] = Ok [v0; v1] ->
  getitem2 max_vel 0 0 = Ok m00 ->
  getitem2 max_vel 1 0 = Ok m10 ->
  CircleFollow WrapToPi st max_vel center radius
  = Ok [[py_max 0.1 (m00 * 0.5)];
        [m10 * tanh (2 * WrapToPi (arctan2 v1 v0 + PI / 2 - theta))]].
Proof.
  intros Hst Hvec H00 H10. unfold CircleFollow.
  rewrite Hst. cbn [unpack3 bind]. rewrite Hvec. cbn [bind].
  cbn. rewrite H00. cbn [bind]. rewrite H10. reflexivity.
Qed.

(** On a 3x1 pose, a 2x1 velocity limit and a centre of two coordinates
    nothing raises. *)
Lemma CircleFollow_eval x y theta vmax wmax cx cy radius :
  CircleFollow WrapToPi [[x]; [y]; [theta]] [[vmax]; [wmax]]
    (Vector [cx; cy]) radius
  = Ok [[py_max 0.1 (vmax * 0.5)];
        [wmax * tanh (2 * tangent_error WrapToPi cx cy x y theta)]].
Proof.
  unfold tangent_error.
  by apply (CircleFollow_spec _ _ _ _ x y theta (cx - x) (cy - y) vmax wmax).
Qed.

(** A state that does not flatten to three values stops the function at
    its first line. *)
Lemma CircleFollow_bad_state st max_vel center radius :
  length (flatten st) <> 3%nat ->
  CircleFollow WrapToPi st max_vel center radius = Raise ValueError.
Proof.
  intros Hlen. unfold CircleFollow.
  destruct (flatten st) as [|a [|b [|c [|d l]]]]; cbn in *; done.
Qed.

(** A centre of three or more coordinates cannot be broadcast against the
    robot's position. *)
Lemma CircleFollow_bad_center x y theta max_vel c0 c1 c2 l radius :
  CircleFollow WrapToPi [[x]; [y]; [theta]] max_vel
    (Vector (c0 :: c1 :: c2 :: l)) radius
  = Raise ValueError.
Proof. reflexivity. Qed.

(** The angular command as a function of the wrapped error. *)
Lemma angular_speed_sign wmax d :
  0 < wmax ->
  (0 < wmax * tanh (2 * d) <-> 0 < d) /\
  (wmax * tanh (2 * d) < 0 <-> d < 0) /\
  (wmax * tanh (2 * d) = 0 <-> d = 0).
Proof.
  intros Hw.
  pose proof (tanh_pos (2 * d)) as Hp.
  pose proof (tanh_neg (2 * d)) as Hn.
  pose proof (tanh_zero (2 * d)) as Hz.
  repeat split; intros H; nra.
Qed.

Lemma angular_speed_increasing wmax d d' :
  0 < wmax -> d < d' -> wmax * tanh (2 * d) < wmax * tanh (2 * d').
Proof.
  intros Hw Hd. apply Rmult_lt_compat_l; [done|].
  apply tanh_increasing. lra.
Qed.

Lemma angular_speed_bound wmax d :
  0 <= wmax -> Rabs (wmax * tanh (2 * d)) <= wmax.
Proof.
  intros Hw. pose proof (tanh_bounds (2 * d)) as [Hlo Hhi].
  apply Rabs_le. split; nra.
Qed.

(** The behaviour is [CircleFollow] on what it reads of the robot and of
    the keyword arguments. *)
Lemma beh_diff_circle_follow_unfold {O X : Type} `{EgoObject O}
    (ego : O) (ext : option (list X)) (kwargs : gmap string pyval) :
  beh_diff_circle_follow WrapToPi ego ext kwargs
  = CircleFollow WrapToPi (state ego) (get_vel_range ego).2
      (np_array (default (PyList [5.0; 5.0]) (kwargs !! "center")))
      (default (PyFloat 2.0) (kwargs !! "radius")).
Proof. reflexivity. Qed.

(** Only the maximum of the velocity range is read. *)
Lemma beh_diff_circle_follow_reads {O X : Type} `{EgoObject O}
    (ego ego' : O) (ext ext' : option (list X)) (kwargs : gmap string pyval) :
  state ego = state ego' ->
  (get_vel_range ego).2 = (get_vel_range ego').2 ->
  beh_diff_circle_follow WrapToPi ego ext kwargs
  = beh_diff_circle_follow WrapToPi ego' ext' kwargs.
Proof.
  intros Hst Hvel. rewrite !beh_diff_circle_follow_unfold, Hst, Hvel. done.
Qed.

(** With the default centre, or a centre of two coordinates, the behaviour
    of a robot with a 3x1 state and a 2x1 maximum velocity returns a 2x1
    command. *)
Lemma beh_diff_circle_follow_returns {X : Type} x y theta vmin vmax wmax
    (ext : option (list X)) (kwargs : gmap string pyval) :
  kwargs !! "center" = None \/
  (exists cx cy, kwargs !! "center" = Some (PyList [cx; cy])) ->
  exists v w,
    beh_diff_circle_follow WrapToPi
      (Robot [[x]; [y]; [theta]] (vmin, [[vmax]; [wmax]])) ext kwargs
    = Ok [[v]; [w]].
Proof.
  intros Hc. rewrite beh_diff_circle_follow_unfold.
  destruct Hc as [-> | (cx & cy & ->)]; cbn [default np_array];
    eexists _, _; apply CircleFollow_eval.
Qed.

(** ** The claims *)

(** C1 (code defect).  The docstring of the behaviour promises a circle
    around CENTER with RADIUS, so a command that depends on [radius].  The
    code never reads [radius], and computes [distance] without using it:
    two calls of [CircleFollow] that differ only in the radius return the
    same result, whatever the other arguments. *)
Theorem CircleFollow_radius_unused st max_vel center radius radius' :
  CircleFollow WrapToPi st max_vel center radius
  = CircleFollow WrapToPi st max_vel center radius'.
Proof. reflexivity. Qed.

(** The same through the behaviour: a [radius] keyword changes nothing. *)
Lemma beh_diff_circle_follow_radius_unused {O X : Type} `{EgoObject O}
    (ego : O) (ext : option (list X)) (kwargs : gmap string pyval) r :
  beh_diff_circle_follow WrapToPi ego ext (<["radius" := r]> kwargs)
  = beh_diff_circle_follow WrapToPi ego ext kwargs.
Proof.
  rewrite !beh_diff_circle_follow_unfold.
  rewrite lookup_insert_ne by done. reflexivity.
Qed.

(** C2 (amended).  For every pose, centre, radius and velocity range, the
    commanded linear speed is the larger of 0.1 and one half of
    [max_vel[0,0]]; it is one half of [max_vel[0,0]] exactly when
    [max_vel[0,0]] is at least 0.2. *)
Theorem CircleFollow_half_speed_or_floor x y theta cx cy radius vmax wmax :
  exists v w,
    CircleFollow WrapToPi [[x]; [y]; [theta]] [[vmax]; [wmax]]
      (Vector [cx; cy]) radius = Ok [[v]; [w]] /\
    v = Rmax 0.1 (vmax * 0.5) /\
    (v = vmax * 0.5 <-> 0.2 <= vmax).
Proof.
  eexists _, _. split; [apply CircleFollow_eval|].
  rewrite py_max_Rmax. split; [done|].
  unfold Rmax. destruct (Rle_dec 0.1 (vmax * 0.5)); split; intros; lra.
Qed.

(** C3.  For every pose, centre and radius, and every velocity range whose
    maximum angular velocity [max_vel[1,0]] is not negative, the magnitude
    of the commanded angular speed is at most [max_vel[1,0]]. *)
Theorem CircleFollow_angular_speed_bounded x y theta cx cy radius vmax wmax :
  0 <= wmax ->
  exists v w,
    CircleFollow WrapToPi [[x]; [y]; [theta]] [[vmax]; [wmax]]
      (Vector [cx; cy]) radius = Ok [[v]; [w]] /\
    Rabs w <= wmax.
Proof.
  intros Hw. eexists _, _. split; [apply CircleFollow_eval|].
  by apply angular_speed_bound.
Qed.

(** The law before rounding.  In exact arithmetic, for every pose not at
    the centre and every velocity range with a positive maximum angular
    velocity, the commanded angular speed has the sign of the wrapped
    difference between the counter-clockwise tangent and the heading, is
    zero exactly when that difference is zero, and is strictly increasing
    in it.  Float64 keeps less of this, as the section on float64 below
    shows. *)
Theorem CircleFollow_steers_to_tangent x y theta cx cy radius vmax wmax :
  (x, y) <> (cx, cy) ->
  0 < wmax ->
  exists v w,
    CircleFollow WrapToPi [[x]; [y]; [theta]] [[vmax]; [wmax]]
      (Vector [cx; cy]) radius = Ok [[v]; [w]] /\
    (0 < w <-> 0 < tangent_error WrapToPi cx cy x y theta) /\
    (w < 0 <-> tangent_error WrapToPi cx cy x y theta < 0) /\
    (w = 0 <-> tangent_error WrapToPi cx cy x y theta = 0) /\
    (forall x' y' theta' cx' cy' radius' vmax' v' w',
       (x', y') <> (cx', cy') ->
       CircleFollow WrapToPi [[x']; [y']; [theta']] [[vmax']; [wmax]]
         (Vector [cx'; cy']) radius' = Ok [[v']; [w']] ->
       tangent_error WrapToPi cx cy x y theta
       < tangent_error WrapToPi cx' cy' x' y' theta' ->
       w < w').
Proof.
  intros _ Hw. eexists _, _. split; [apply CircleFollow_eval|].
  destruct (angular_speed_sign wmax
              (tangent_error WrapToPi cx cy x y theta) Hw)
    as (Hpos & Hneg & Hzero).
  repeat split; try tauto.
  intros x' y' theta' cx' cy' radius' vmax' v' w' _ Hcall Hlt.
  rewrite CircleFollow_eval in Hcall. injection Hcall as _ <-.
  by apply angular_speed_increasing.
Qed.

(** C5.  The behaviour is a function of the robot's state, its velocity
    range and the keyword arguments: two calls on robots with equal state
    and equal velocity range, with equal keyword arguments, return the same
    result, whatever the two [external_objects] arguments are. *)
Theorem beh_diff_circle_follow_pure {O X : Type} `{EgoObject O}
    (ego ego' : O) (ext ext' : option (list X)) (kwargs : gmap string pyval) :
  state ego = state ego' ->
  get_vel_range ego = get_vel_range ego' ->
  beh_diff_circle_follow WrapToPi ego ext kwargs
  = beh_diff_circle_follow WrapToPi ego' ext' kwargs.
Proof.
  intros Hst Hvel. apply beh_diff_circle_follow_reads; [done|].
  by rewrite Hvel.
Qed.

(** C6.  Defaults: with neither a ["center"] nor a ["radius"] keyword the
    behaviour returns what it returns with [center=[5.0, 5.0]] and
    [radius=2.0], and [external_objects=None] gives what the empty list
    gives. *)
Theorem beh_diff_circle_follow_defaults {O X : Type} `{EgoObject O}
    (ego : O) (ext : option (list X)) (kwargs : gmap string pyval) :
  kwargs !! "center" = None ->
  kwargs !! "radius" = None ->
  beh_diff_circle_follow WrapToPi ego ext kwargs
  = beh_diff_circle_follow WrapToPi ego ext
      (<["center" := PyList [5.0; 5.0]]> (<["radius" := PyFloat 2.0]> kwargs))
  /\ beh_diff_circle_follow WrapToPi ego (None : option (list X)) kwargs
     = beh_diff_circle_follow WrapToPi ego (Some ([] : list X)) kwargs.
Proof.
  intros Hc Hr. split; [|reflexivity].
  rewrite !beh_diff_circle_follow_unfold.
  rewrite lookup_insert_eq, lookup_insert_ne by done.
  rewrite lookup_insert_eq, Hc, Hr. reflexivity.
Qed.

(** C7.  For every pose [(x, y, theta)] and every velocity range (and a
    centre of two coordinates), the function returns a 2x1 array
    [[linear_speed], [angular_speed]]: two rows of one entry, two
    components in all. *)
Theorem CircleFollow_returns_2x1 x y theta cx cy radius vmax wmax :
  exists m linear_speed angular_speed,
    CircleFollow WrapToPi [[x]; [y]; [theta]] [[vmax]; [wmax]]
      (Vector [cx; cy]) radius = Ok m /\
    m = [[linear_speed]; [angular_speed]] /\
    shape m = (2%nat, 1%nat) /\
    length (flatten m) = 2%nat.
Proof.
  eexists _, _, _. split; [apply CircleFollow_eval|]. done.
Qed.

(** C8.  For every pose, centre, radius and velocity range, the commanded
    linear speed is at least 0.1; when [max_vel[0,0]] is below 0.2 it is
    0.1, and when [max_vel[0,0]] is below 0.1 (zero included) it exceeds
    that maximum. *)
Theorem CircleFollow_linear_speed_floor x y theta cx cy radius vmax wmax :
  exists v w,
    CircleFollow WrapToPi [[x]; [y]; [theta]] [[vmax]; [wmax]]
      (Vector [cx; cy]) radius = Ok [[v]; [w]] /\
    0.1 <= v /\
    (vmax < 0.2 -> v = 0.1) /\
    (vmax < 0.1 -> vmax < v).
Proof.
  eexists _, _. split; [apply CircleFollow_eval|].
  unfold py_max. destruct (Rlt_dec 0.1 (vmax * 0.5)); repeat split; intros; lra.
Qed.

(** The singular pose before rounding.  In exact arithmetic, where a zero
    has no sign, with the robot on the centre the vector to the centre is
    zero, so is its norm, [arctan2] of it is [0], the tangent angle is
    [PI / 2], and [CircleFollow] returns the command built from the
    wrapped [PI / 2 - theta].  The section on float64 below takes the
    sign of a zero into account. *)
Theorem CircleFollow_at_center cx cy theta radius vmax wmax :
  broadcast_sub (Vector [cx; cy]) [cx; cy] = Ok [0; 0] /\
  norm [0; 0] = 0 /\
  arctan2 0 0 + PI / 2 = PI / 2 /\
  CircleFollow WrapToPi [[cx]; [cy]; [theta]] [[vmax]; [wmax]]
    (Vector [cx; cy]) radius
  = Ok [[py_max 0.1 (vmax * 0.5)];
        [wmax * tanh (2 * WrapToPi (PI / 2 - theta))]].
Proof.
  assert (Hsub : broadcast_sub (Vector [cx; cy]) [cx; cy] = Ok [0; 0]).
  { rewrite broadcast_sub_point. by rewrite !Rminus_diag. }
  split; [done|]. split; [apply norm_origin|].
  split; [rewrite arctan2_origin; lra|].
  rewrite (CircleFollow_spec _ _ _ _ cx cy theta 0 0 vmax wmax) by done.
  rewrite arctan2_origin. by rewrite Rplus_0_l.
Qed.

End CircleFollowFacts.

(** ** The claims on concrete calls

    The calls below take the library's loop for [WrapToPi], a robot at the
    origin heading along the x axis, and the centre [(5, 5)]. *)

(** There the tangent is three eighths of a turn to the left of the
    heading. *)
Lemma tangent_error_origin :
  tangent_error Irsim.WrapToPi 5 5 0 0 0 = 3 * PI / 4.
Proof.
  pose proof PI_RGT_0 as Hpi.
  unfold tangent_error, arctan2.
  destruct (Rlt_dec 0 (5 - 0)) as [_|Hn]; [|lra].
  replace ((5 - 0) / (5 - 0)) with 1 by (field; lra).
  rewrite atan_1, WrapToPi_id; lra.
Qed.

(** The call with radius 2 and the call with radius 100 return the same
    command, one half and [tanh (3 * PI / 2)]. *)
Lemma CircleFollow_radius_example (radius : R) :
  CircleFollow Irsim.WrapToPi [[0]; [0]; [0]] [[1]; [1]]
    (Vector [5; 5]) (PyFloat radius)
  = Ok [[0.5]; [tanh (3 * PI / 2)]].
Proof.
  rewrite CircleFollow_eval, tangent_error_origin.
  unfold py_max. destruct (Rlt_dec 0.1 (1 * 0.5)) as [_|Hn]; [|lra].
  replace (1 * 0.5) with 0.5 by lra.
  replace (1 * tanh (2 * (3 * PI / 4))) with (tanh (3 * PI / 2)); [done|].
  rewrite Rmult_1_l. f_equal. lra.
Qed.

(** C2, the claim as stated fails: with [max_vel[0,0] = 0] the commanded
    linear speed is 0.1, not one half of 0. *)
Lemma CircleFollow_speed_not_half :
  exists v w,
    CircleFollow Irsim.WrapToPi [[0]; [0]; [0]] [[0]; [1]]
      (Vector [5; 5]) (PyFloat 2) = Ok [[v]; [w]] /\
    v = 0.1 /\
    v <> 0 * 0.5.
Proof.
  eexists _, _. split; [apply CircleFollow_eval|].
  unfold py_max. destruct (Rlt_dec 0.1 (0 * 0.5)); split; lra.
Qed.

(** C3 on a concrete call. *)
Lemma CircleFollow_angular_speed_bounded_witness :
  0 <= 1 /\
  exists v w,
    CircleFollow Irsim.WrapToPi [[0]; [0]; [0]] [[1]; [1]]
      (Vector [5; 5]) (PyFloat 2) = Ok [[v]; [w]] /\
    Rabs w <= 1.
Proof.
  split; [lra|].
  apply (CircleFollow_angular_speed_bounded Irsim.WrapToPi 0 0 0 5 5
           (PyFloat 2) 1 1).
  lra.
Defined.

(** The law before rounding on a concrete call: the tangent is to the
    left, the robot is told to turn left. *)
Lemma CircleFollow_steers_to_tangent_witness :
  (0, 0) <> (5, 5) /\
  0 < 1 /\
  exists v w,
    CircleFollow Irsim.WrapToPi [[0]; [0]; [0]] [[1]; [1]]
      (Vector [5; 5]) (PyFloat 2) = Ok [[v]; [w]] /\
    0 < w.
Proof.
  assert (Hpos : (0, 0) <> (5, 5)) by (intros [= H0 _]; lra).
  assert (Hw : 0 < 1) by lra.
  split; [exact Hpos|]. split; [exact Hw|].
  destruct (CircleFollow_steers_to_tangent Irsim.WrapToPi 0 0 0 5 5
              (PyFloat 2) 1 1 Hpos Hw) as (v & w & Hcall & Hsign & _).
  exists v, w. split; [exact Hcall|].
  apply Hsign. rewrite tangent_error_origin.
  pose proof PI_RGT_0. lra.
Defined.

(** C5 on a concrete pair of calls: two robots that differ in their name,
    two different lists of external objects. *)
Lemma beh_diff_circle_follow_pure_witness :
  state (NamedRobot "a" (Robot [[0]; [0]; [0]] ([[0]; [0]], [[1]; [1]])))
  = state (NamedRobot "b" (Robot [[0]; [0]; [0]] ([[0]; [0]], [[1]; [1]])))
  /\
  get_vel_range
    (NamedRobot "a" (Robot [[0]; [0]; [0]] ([[0]; [0]], [[1]; [1]])))
  = get_vel_range
      (NamedRobot "b" (Robot [[0]; [0]; [0]] ([[0]; [0]], [[1]; [1]])))
  /\
  beh_diff_circle_follow Irsim.WrapToPi
    (NamedRobot "a" (Robot [[0]; [0]; [0]] ([[0]; [0]], [[1]; [1]])))
    (Some [1%nat; 2%nat]) {["center" := PyList [1; 1]]}
  = beh_diff_circle_follow Irsim.WrapToPi
      (NamedRobot "b" (Robot [[0]; [0]; [0]] ([[0]; [0]], [[1]; [1]])))
      (None : option (list nat)) {["center" := PyList [1; 1]]}.
Proof.
  split; [reflexivity|]. split; [reflexivity|].
  apply (beh_diff_circle_follow_pure Irsim.WrapToPi
           (NamedRobot "a" (Robot [[0]; [0]; [0]] ([[0]; [0]], [[1]; [1]])))
           (NamedRobot "b" (Robot [[0]; [0]; [0]] ([[0]; [0]], [[1]; [1]]))));
    reflexivity.
Defined.

(** C6 on a concrete call: the keyword arguments hold an unrelated key
    only. *)
Lemma beh_diff_circle_follow_defaults_witness :
  ({["speed" := PyFloat 1]} : gmap string pyval) !! "center" = None /\
  ({["speed" := PyFloat 1]} : gmap string pyval) !! "radius" = None /\
  beh_diff_circle_follow Irsim.WrapToPi
    (Robot [[0]; [0]; [0]] ([[0]; [0]], [[1]; [1]]))
    (Some [1%nat]) {["speed" := PyFloat 1]}
  = beh_diff_circle_follow Irsim.WrapToPi
      (Robot [[0]; [0]; [0]] ([[0]; [0]], [[1]; [1]]))
      (Some [1%nat])
      (<["center" := PyList [5.0; 5.0]]>
         (<["radius" := PyFloat 2.0]> {["speed" := PyFloat 1]}))
  /\ beh_diff_circle_follow Irsim.WrapToPi
       (Robot [[0]; [0]; [0]] ([[0]; [0]], [[1]; [1]]))
       (None : option (list nat)) {["speed" := PyFloat 1]}
     = beh_diff_circle_follow Irsim.WrapToPi
         (Robot [[0]; [0]; [0]] ([[0]; [0]], [[1]; [1]]))
         (Some ([] : list nat)) {["speed" := PyFloat 1]}.
Proof.
  split; [reflexivity|]. split; [reflexivity|].
  apply (beh_diff_circle_follow_defaults Irsim.WrapToPi
           (Robot [[0]; [0]; [0]] ([[0]; [0]], [[1]; [1]]))
           (Some [1%nat]) {["speed" := PyFloat 1]}); reflexivity.
Defined.

(** C8 on a concrete call: a robot whose maximum linear velocity is zero
    is told to move at 0.1. *)
Lemma CircleFollow_linear_speed_floor_witness :
  exists v w,
    CircleFollow Irsim.WrapToPi [[0]; [0]; [0]] [[0]; [1]]
      (Vector [5; 5]) (PyFloat 2) = Ok [[v]; [w]] /\
    v = 0.1 /\
    0 < v.
Proof.
  destruct (CircleFollow_linear_speed_floor Irsim.WrapToPi 0 0 0 5 5
              (PyFloat 2) 0 1) as (v & w & Hcall & _ & Hfloor & Hmore).
  exists v, w. split; [exact Hcall|].
  split; [apply Hfloor; lra|apply Hmore; lra].
Defined.

(** ** When the function returns and what it raises *)

Lemma unpack3_ok l :
  (exists p, unpack3 l = Ok p) <-> length l = 3%nat.
Proof.
  destruct l as [|x [|y [|t [|u l]]]]; cbn; split;
    try done; try (intros [p Hp]; done); eauto.
Qed.

Lemma unpack3_raise l e : unpack3 l = Raise e -> e = ValueError.
Proof.
  destruct l as [|x [|y [|t [|u l]]]]; cbn; congruence.
Qed.

Lemma getitem_raise v i e : getitem v i = Raise e -> e = IndexError.
Proof. unfold getitem. destruct (v !! i); congruence. Qed.

Lemma getitem2_raise a i j e : getitem2 a i j = Raise e -> e = IndexError.
Proof.
  unfold getitem2. destruct (a !! i); [apply getitem_raise|congruence].
Qed.

Lemma broadcast_sub_raise a b e : broadcast_sub a b = Raise e -> e = ValueError.
Proof.
  destruct a as [r|l]; cbn [broadcast_sub]; [done|].
  destruct (decide (length l = length b)); [done|].
  destruct l as [|a0 [|a1 l]], b as [|b0 [|b1 b]]; congruence.
Qed.

(** A broadcast against a pair succeeds on the pairable arrays and on no
    other, and gives a pair. *)
Lemma broadcast_sub_pairable a x y :
  (exists v0 v1, broadcast_sub a [x; y] = Ok [v0; v1]) <-> pairable a.
Proof.
  destruct a as [r|l]; cbn [pairable].
  - split; [done|]. intros _. by eexists _, _.
  - destruct l as [|a0 [|a1 [|a2 l]]]; cbn; split;
      try (intros (v0 & v1 & Hv); done);
      try (intros [Hl|Hl]; done);
      try (intros _; by eexists _, _);
      intros _; auto.
Qed.

Lemma broadcast_sub_not_pairable a x y :
  ~ pairable a -> broadcast_sub a [x; y] = Raise ValueError.
Proof.
  intros Hn. destruct (broadcast_sub a [x; y]) as [v|e] eqn:Hb.
  - exfalso. apply Hn, (broadcast_sub_pairable a x y).
    pose proof (broadcast_sub_pair _ _ _ _ Hb) as Hlen.
    destruct v as [|v0 [|v1 [|v2 v]]]; try done. by eexists _, _.
  - by rewrite (broadcast_sub_raise _ _ _ Hb).
Qed.

Section CircleFollowOutcome.

Variable WrapToPi : R -> R.

(** [CircleFollow] returns a command exactly when the state flattens to
    three values, the centre broadcasts against the position, and the
    velocity limit has the entries [0,0] and [1,0]. *)
Theorem CircleFollow_returns_iff st max_vel center radius :
  (exists m, CircleFollow WrapToPi st max_vel center radius = Ok m) <->
  length (flatten st) = 3%nat /\
  pairable center /\
  (exists m00, getitem2 max_vel 0 0 = Ok m00) /\
  (exists m10, getitem2 max_vel 1 0 = Ok m10).
Proof.
  split.
  - intros [m Hm]. unfold CircleFollow in Hm.
    destruct (flatten st) as [|x [|y [|t [|u l]]]]; try done.
    cbn [unpack3 bind] in Hm.
    destruct (broadcast_sub center [x; y]) as [v|e] eqn:Hb; [|done].
    pose proof (broadcast_sub_pair _ _ _ _ Hb) as Hlen.
    destruct v as [|v0 [|v1 [|v2 v]]]; try done.
    cbn [bind getitem lookup list_lookup] in Hm.
    destruct (getitem2 max_vel 0 0) as [m00|] eqn:H00; [|done].
    destruct (getitem2 max_vel 1 0) as [m10|] eqn:H10; [|done].
    split; [done|]. split; [|by eauto].
    apply (broadcast_sub_pairable center x y). by eexists _, _.
  - intros (Hst & Hc & [m00 H00] & [m10 H10]).
    destruct (flatten st) as [|x [|y [|t [|u l]]]] eqn:Hf; try done.
    apply (broadcast_sub_pairable center x y) in Hc as (v0 & v1 & Hb).
    eexists. by apply (CircleFollow_spec _ _ _ _ _ x y t v0 v1 m00 m10).
Qed.

(** It raises [ValueError] exactly when the state does not flatten to three
    values or the centre does not broadcast; the velocity limit is not
    looked at then. *)
Theorem CircleFollow_ValueError_iff st max_vel center radius :
  CircleFollow WrapToPi st max_vel center radius = Raise ValueError <->
  length (flatten st) <> 3%nat \/ ~ pairable center.
Proof.
  split.
  - intros Hr. unfold CircleFollow in Hr.
    destruct (flatten st) as [|x [|y [|t [|u l]]]];
      try (left; cbn; lia).
    cbn [unpack3 bind] in Hr. right. intros Hc.
    apply (broadcast_sub_pairable center x y) in Hc as (v0 & v1 & Hb).
    rewrite Hb in Hr. cbn [bind getitem lookup list_lookup] in Hr.
    destruct (getitem2 max_vel 0 0) as [m00|e0] eqn:H00.
    + destruct (getitem2 max_vel 1 0) as [m10|e1] eqn:H10; [done|].
      apply getitem2_raise in H10. cbn in Hr. congruence.
    + apply getitem2_raise in H00. cbn in Hr. congruence.
  - intros [Hst|Hc].
    + by apply CircleFollow_bad_state.
    + unfold CircleFollow.
      destruct (flatten st) as [|x [|y [|t [|u l]]]]; try done.
      cbn [unpack3 bind]. by rewrite broadcast_sub_not_pairable.
Qed.

(** It raises [IndexError] exactly when state and centre are in order and
    the velocity limit lacks the entry [0,0] or the entry [1,0]. *)
Theorem CircleFollow_IndexError_iff st max_vel center radius :
  CircleFollow WrapToPi st max_vel center radius = Raise IndexError <->
  length (flatten st) = 3%nat /\
  pairable center /\
  (getitem2 max_vel 0 0 = Raise IndexError \/
   getitem2 max_vel 1 0 = Raise IndexError).
Proof.
  split.
  - intros Hr. unfold CircleFollow in Hr.
    destruct (flatten st) as [|x [|y [|t [|u l]]]]; try done.
    cbn [unpack3 bind] in Hr.
    destruct (broadcast_sub center [x; y]) as [v|e] eqn:Hb.
    + pose proof (broadcast_sub_pair _ _ _ _ Hb) as Hlen.
      destruct v as [|v0 [|v1 [|v2 v]]]; try done.
      cbn [bind getitem lookup list_lookup] in Hr.
      split; [done|].
      split; [apply (broadcast_sub_pairable center x y); by eexists _, _|].
      destruct (getitem2 max_vel 0 0) as [m00|e0] eqn:H00.
      * destruct (getitem2 max_vel 1 0) as [m10|e1] eqn:H10; [done|].
        right. by rewrite (getitem2_raise _ _ _ _ H10).
      * left. by rewrite (getitem2_raise _ _ _ _ H00).
    + apply broadcast_sub_raise in Hb. cbn in Hr. congruence.
  - intros (Hst & Hc & Hmv). unfold CircleFollow.
    destruct (flatten st) as [|x [|y [|t [|u l]]]]; try done.
    apply (broadcast_sub_pairable center x y) in Hc as (v0 & v1 & Hb).
    cbn [unpack3 bind]. rewrite Hb.
    cbn [bind getitem lookup list_lookup].
    destruct Hmv as [H00|H10]; [by rewrite H00|].
    destruct (getitem2 max_vel 0 0) as [m00|e0] eqn:H00.
    + cbn [bind]. by rewrite H10.
    + by rewrite (getitem2_raise _ _ _ _ H00).
Qed.

End CircleFollowOutcome.

(** ** What the command depends on *)

(** [arctan2] sees the direction of a vector, not its length. *)
Lemma arctan2_scale k y x : 0 < k -> arctan2 (k * y) (k * x) = arctan2 y x.
Proof.
  intros Hk. unfold arctan2.
  assert (Hq : x <> 0 -> k * y / (k * x) = y / x) by (intros; field; lra).
  repeat match goal with
         | |- context [Rlt_dec ?a ?b] => destruct (Rlt_dec a b)
         | |- context [Rle_dec ?a ?b] => destruct (Rle_dec a b)
         end;
    first [reflexivity | rewrite Hq by lra; reflexivity | exfalso; nra].
Qed.

(** A centre that does not broadcast raises, whatever the state. *)
Lemma CircleFollow_not_pairable (W : R -> R) st max_vel center radius :
  ~ pairable center ->
  CircleFollow W st max_vel center radius = Raise ValueError.
Proof.
  intros Hc. unfold CircleFollow.
  destruct (unpack3 (flatten st)) as [[[x y] t]|e] eqn:Hu.
  - cbn [bind]. by rewrite broadcast_sub_not_pairable.
  - by rewrite (unpack3_raise _ _ Hu).
Qed.

Section CircleFollowGeometry.

Variable WrapToPi : R -> R.

(** The state enters through its flattening only: a row, a column or any
    other layout of the same three values gives the same result. *)
Theorem CircleFollow_state_layout st st' max_vel center radius :
  flatten st = flatten st' ->
  CircleFollow WrapToPi st max_vel center radius
  = CircleFollow WrapToPi st' max_vel center radius.
Proof. intros Hf. unfold CircleFollow. by rewrite Hf. Qed.

(** A centre given as one number [c], as a float or as a list of one, is
    the point [(c, c)]. *)
Theorem CircleFollow_scalar_center st max_vel c radius :
  CircleFollow WrapToPi st max_vel (Scalar c) radius
  = CircleFollow WrapToPi st max_vel (Vector [c; c]) radius /\
  CircleFollow WrapToPi st max_vel (Vector [c]) radius
  = CircleFollow WrapToPi st max_vel (Vector [c; c]) radius.
Proof.
  unfold CircleFollow.
  destruct (unpack3 (flatten st)) as [[[x y] t]|e]; done.
Qed.

(** Moving the robot and the centre by the same vector leaves the command
    as it is. *)
Theorem CircleFollow_translation a b x y theta max_vel cx cy radius :
  CircleFollow WrapToPi [[x + a]; [y + b]; [theta]] max_vel
    (Vector [cx + a; cy + b]) radius
  = CircleFollow WrapToPi [[x]; [y]; [theta]] max_vel
      (Vector [cx; cy]) radius.
Proof.
  unfold CircleFollow.
  cbn [flatten concat app unpack3 bind].
  rewrite !broadcast_sub_point.
  cbn [bind getitem lookup list_lookup].
  replace (cx + a - (x + a)) with (cx - x) by lra.
  replace (cy + b - (y + b)) with (cy - y) by lra.
  done.
Qed.

(** The command does not depend on how far the robot is from the centre:
    with the robot at the offset [(dx, dy)] from the centre or at any
    positive multiple of it, the result is the same. *)
Theorem CircleFollow_distance_blind k dx dy theta max_vel cx cy radius :
  0 < k ->
  CircleFollow WrapToPi [[cx - k * dx]; [cy - k * dy]; [theta]] max_vel
    (Vector [cx; cy]) radius
  = CircleFollow WrapToPi [[cx - dx]; [cy - dy]; [theta]] max_vel
      (Vector [cx; cy]) radius.
Proof.
  intros Hk. unfold CircleFollow.
  cbn [flatten concat app unpack3 bind].
  rewrite !broadcast_sub_point.
  cbn [bind getitem lookup list_lookup].
  replace (cx - (cx - k * dx)) with (k * dx) by lra.
  replace (cy - (cy - k * dy)) with (k * dy) by lra.
  replace (cx - (cx - dx)) with dx by lra.
  replace (cy - (cy - dy)) with dy by lra.
  by rewrite arctan2_scale.
Qed.

(** The commanded linear speed is within the maximum [max_vel[0,0]] exactly
    when that maximum is at least 0.1. *)
Theorem CircleFollow_linear_speed_within x y theta cx cy radius vmax wmax :
  exists v w,
    CircleFollow WrapToPi [[x]; [y]; [theta]] [[vmax]; [wmax]]
      (Vector [cx; cy]) radius = Ok [[v]; [w]] /\
    (v <= vmax <-> 0.1 <= vmax).
Proof.
  eexists _, _. split; [apply CircleFollow_eval|].
  unfold py_max. destruct (Rlt_dec 0.1 (vmax * 0.5)); split; intros; lra.
Qed.

(** The commanded linear speed is the same at every pose, centre and
    maximum angular velocity, and does not decrease when [max_vel[0,0]]
    grows. *)
Theorem CircleFollow_linear_speed_monotone
    x y theta cx cy radius vmax wmax x' y' theta' cx' cy' radius' vmax' wmax' :
  vmax <= vmax' ->
  exists v w v' w',
    CircleFollow WrapToPi [[x]; [y]; [theta]] [[vmax]; [wmax]]
      (Vector [cx; cy]) radius = Ok [[v]; [w]] /\
    CircleFollow WrapToPi [[x']; [y']; [theta']] [[vmax']; [wmax']]
      (Vector [cx'; cy']) radius' = Ok [[v']; [w']] /\
    v <= v' /\
    (vmax = vmax' -> v = v').
Proof.
  intros Hle. eexists _, _, _, _.
  split; [apply CircleFollow_eval|]. split; [apply CircleFollow_eval|].
  unfold py_max.
  destruct (Rlt_dec 0.1 (vmax * 0.5)), (Rlt_dec 0.1 (vmax' * 0.5));
    split; intros; subst; lra.
Qed.

(** The library documents [WrapToPi] as leaving the angles of [-pi, pi]
    alone.  With such a [WrapToPi], a robot that heads along the
    counter-clockwise tangent is told to drive straight. *)
Theorem CircleFollow_on_tangent x y cx cy radius vmax wmax :
  (forall a, - PI <= a <= PI -> WrapToPi a = a) ->
  exists v,
    CircleFollow WrapToPi
      [[x]; [y]; [arctan2 (cy - y) (cx - x) + PI / 2]] [[vmax]; [wmax]]
      (Vector [cx; cy]) radius = Ok [[v]; [0]].
Proof.
  intros Hid. pose proof PI_RGT_0 as Hpi.
  eexists. rewrite CircleFollow_eval. unfold tangent_error.
  rewrite Rminus_diag, Hid by lra.
  by rewrite Rmult_0_r, tanh_0, Rmult_0_r.
Qed.

(** With such a [WrapToPi] and a positive [max_vel[1,0]], a robot that
    heads straight at the centre is told to turn left, and one that heads
    straight away from it to turn right. *)
Theorem CircleFollow_facing_center x y cx cy radius vmax wmax :
  (forall a, - PI <= a <= PI -> WrapToPi a = a) ->
  0 < wmax ->
  exists v w v' w',
    CircleFollow WrapToPi
      [[x]; [y]; [arctan2 (cy - y) (cx - x)]] [[vmax]; [wmax]]
      (Vector [cx; cy]) radius = Ok [[v]; [w]] /\
    0 < w /\
    CircleFollow WrapToPi
      [[x]; [y]; [arctan2 (cy - y) (cx - x) + PI]] [[vmax]; [wmax]]
      (Vector [cx; cy]) radius = Ok [[v']; [w']] /\
    w' < 0.
Proof.
  intros Hid Hw. pose proof PI_RGT_0 as Hpi.
  eexists _, _, _, _.
  split; [apply CircleFollow_eval|].
  split.
  - apply angular_speed_sign; [done|]. unfold tangent_error.
    replace (arctan2 (cy - y) (cx - x) + PI / 2 - arctan2 (cy - y) (cx - x))
      with (PI / 2) by lra.
    rewrite Hid; lra.
  - split; [apply CircleFollow_eval|].
    apply angular_speed_sign; [done|]. unfold tangent_error.
    replace (arctan2 (cy - y) (cx - x) + PI / 2
             - (arctan2 (cy - y) (cx - x) + PI))
      with (- (PI / 2)) by lra.
    rewrite Hid; lra.
Qed.

(** Opposite errors get opposite angular commands: of two calls with the
    same [max_vel[1,0]] whose wrapped differences are opposite, one turns
    left as fast as the other turns right. *)
Theorem CircleFollow_angular_speed_odd
    x y theta cx cy radius vmax wmax x' y' theta' cx' cy' radius' vmax' :
  tangent_error WrapToPi cx' cy' x' y' theta'
  = - tangent_error WrapToPi cx cy x y theta ->
  exists v w v' w',
    CircleFollow WrapToPi [[x]; [y]; [theta]] [[vmax]; [wmax]]
      (Vector [cx; cy]) radius = Ok [[v]; [w]] /\
    CircleFollow WrapToPi [[x']; [y']; [theta']] [[vmax']; [wmax]]
      (Vector [cx'; cy']) radius' = Ok [[v']; [w']] /\
    w' = - w.
Proof.
  intros Hopp. eexists _, _, _, _.
  split; [apply CircleFollow_eval|]. split; [apply CircleFollow_eval|].
  rewrite Hopp.
  replace (2 * - tangent_error WrapToPi cx cy x y theta)
    with (- (2 * tangent_error WrapToPi cx cy x y theta)) by lra.
  rewrite tanh_opp. lra.
Qed.

(** ** What the behaviour reads of its arguments *)

(** No keyword but ["center"] has an effect. *)
Theorem beh_diff_circle_follow_other_keys {O X : Type} `{EgoObject O}
    (ego : O) (ext : option (list X)) (kwargs : gmap string pyval) k v :
  k <> "center" ->
  beh_diff_circle_follow WrapToPi ego ext (<[k := v]> kwargs)
  = beh_diff_circle_follow WrapToPi ego ext kwargs /\
  beh_diff_circle_follow WrapToPi ego ext (delete k kwargs)
  = beh_diff_circle_follow WrapToPi ego ext kwargs.
Proof.
  intros Hk. rewrite !beh_diff_circle_follow_unfold.
  rewrite lookup_insert_ne, lookup_delete_ne by done.
  split; reflexivity.
Qed.

(** A ["center"] list that is empty or has three or more values makes the
    behaviour raise [ValueError], for every robot. *)
Theorem beh_diff_circle_follow_bad_center {O X : Type} `{EgoObject O}
    (ego : O) (ext : option (list X)) (kwargs : gmap string pyval) l :
  length l <> 1%nat ->
  length l <> 2%nat ->
  beh_diff_circle_follow WrapToPi ego ext (<["center" := PyList l]> kwargs)
  = Raise ValueError.
Proof.
  intros H1 H2. rewrite beh_diff_circle_follow_unfold, lookup_insert_eq.
  apply CircleFollow_not_pairable. cbn. tauto.
Qed.

(** Of the velocity range the behaviour reads the maximum only: robots
    with equal state and equal maximum get the same result, whatever their
    minimum velocities. *)
Theorem beh_diff_circle_follow_ignores_min_vel {O X : Type} `{EgoObject O}
    (ego ego' : O) (ext : option (list X)) (kwargs : gmap string pyval) :
  state ego = state ego' ->
  (get_vel_range ego).2 = (get_vel_range ego').2 ->
  beh_diff_circle_follow WrapToPi ego ext kwargs
  = beh_diff_circle_follow WrapToPi ego' ext kwargs.
Proof.
  intros Hst Hvel. rewrite !beh_diff_circle_follow_unfold.
  by rewrite Hst, Hvel.
Qed.

End CircleFollowGeometry.

(** ** Concrete calls *)

Lemma CircleFollow_state_layout_witness :
  flatten [[0; 0; 0]] = flatten [[0]; [0]; [0]] /\
  CircleFollow Irsim.WrapToPi [[0; 0; 0]] [[1]; [1]] (Vector [5; 5])
    (PyFloat 2)
  = CircleFollow Irsim.WrapToPi [[0]; [0]; [0]] [[1]; [1]] (Vector [5; 5])
      (PyFloat 2).
Proof.
  split; [reflexivity|].
  apply (CircleFollow_state_layout Irsim.WrapToPi [[0; 0; 0]]
           [[0]; [0]; [0]]).
  reflexivity.
Defined.

Lemma CircleFollow_distance_blind_witness :
  0 < 2 /\
  CircleFollow Irsim.WrapToPi [[5 - 2 * 1]; [5 - 2 * 3]; [0]] [[1]; [1]]
    (Vector [5; 5]) (PyFloat 2)
  = CircleFollow Irsim.WrapToPi [[5 - 1]; [5 - 3]; [0]] [[1]; [1]]
      (Vector [5; 5]) (PyFloat 2).
Proof.
  split; [lra|].
  apply (CircleFollow_distance_blind Irsim.WrapToPi 2 1 3 0 [[1]; [1]] 5 5).
  lra.
Defined.

Lemma CircleFollow_linear_speed_monotone_witness :
  1 <= 2 /\
  exists v w v' w',
    CircleFollow Irsim.WrapToPi [[0]; [0]; [0]] [[1]; [1]]
      (Vector [5; 5]) (PyFloat 2) = Ok [[v]; [w]] /\
    CircleFollow Irsim.WrapToPi [[3]; [4]; [1]] [[2]; [7]]
      (Vector [0; 0]) (PyFloat 1) = Ok [[v']; [w']] /\
    v <= v' /\
    (1 = 2 -> v = v').
Proof.
  split; [lra|].
  apply (CircleFollow_linear_speed_monotone Irsim.WrapToPi
           0 0 0 5 5 (PyFloat 2) 1 1 3 4 1 0 0 (PyFloat 1) 2 7).
  lra.
Defined.

Lemma CircleFollow_on_tangent_witness :
  (forall a, - PI <= a <= PI -> Irsim.WrapToPi a = a) /\
  exists v,
    CircleFollow Irsim.WrapToPi
      [[0]; [0]; [arctan2 (5 - 0) (5 - 0) + PI / 2]] [[1]; [1]]
      (Vector [5; 5]) (PyFloat 2) = Ok [[v]; [0]].
Proof.
  split; [exact WrapToPi_id|].
  apply (CircleFollow_on_tangent Irsim.WrapToPi 0 0 5 5 (PyFloat 2) 1 1).
  exact WrapToPi_id.
Defined.

Lemma CircleFollow_facing_center_witness :
  (forall a, - PI <= a <= PI -> Irsim.WrapToPi a = a) /\
  0 < 1 /\
  exists v w v' w',
    CircleFollow Irsim.WrapToPi
      [[0]; [0]; [arctan2 (5 - 0) (5 - 0)]] [[1]; [1]]
      (Vector [5; 5]) (PyFloat 2) = Ok [[v]; [w]] /\
    0 < w /\
    CircleFollow Irsim.WrapToPi
      [[0]; [0]; [arctan2 (5 - 0) (5 - 0) + PI]] [[1]; [1]]
      (Vector [5; 5]) (PyFloat 2) = Ok [[v']; [w']] /\
    w' < 0.
Proof.
  split; [exact WrapToPi_id|]. split; [lra|].
  apply (CircleFollow_facing_center Irsim.WrapToPi 0 0 5 5 (PyFloat 2) 1 1);
    [exact WrapToPi_id|lra].
Defined.

Lemma beh_diff_circle_follow_other_keys_witness :
  "radius" <> "center" /\
  beh_diff_circle_follow Irsim.WrapToPi
    (Robot [[0]; [0]; [0]] ([[0]; [0]], [[1]; [1]]))
    (None : option (list nat)) (<["radius" := PyFloat 9]> ∅)
  = beh_diff_circle_follow Irsim.WrapToPi
      (Robot [[0]; [0]; [0]] ([[0]; [0]], [[1]; [1]]))
      (None : option (list nat)) ∅ /\
  beh_diff_circle_follow Irsim.WrapToPi
    (Robot [[0]; [0]; [0]] ([[0]; [0]], [[1]; [1]]))
    (None : option (list nat)) (delete "radius" ∅)
  = beh_diff_circle_follow Irsim.WrapToPi
      (Robot [[0]; [0]; [0]] ([[0]; [0]], [[1]; [1]]))
      (None : option (list nat)) ∅.
Proof.
  split; [done|].
  apply (beh_diff_circle_follow_other_keys Irsim.WrapToPi
           (Robot [[0]; [0]; [0]] ([[0]; [0]], [[1]; [1]]))
           (None : option (list nat)) ∅ "radius" (PyFloat 9)).
  done.
Defined.

Lemma beh_diff_circle_follow_bad_center_witness :
  length [1; 2; 3] <> 1%nat /\
  length [1; 2; 3] <> 2%nat /\
  beh_diff_circle_follow Irsim.WrapToPi
    (Robot [[0]; [0]; [0]] ([[0]; [0]], [[1]; [1]]))
    (None : option (list nat)) (<["center" := PyList [1; 2; 3]]> ∅)
  = Raise ValueError.
Proof.
  split; [cbn; lia|]. split; [cbn; lia|].
  apply (beh_diff_circle_follow_bad_center Irsim.WrapToPi
           (Robot [[0]; [0]; [0]] ([[0]; [0]], [[1]; [1]]))
           (None : option (list nat)) ∅ [1; 2; 3]); cbn; lia.
Defined.

Lemma beh_diff_circle_follow_ignores_min_vel_witness :
  state (Robot [[0]; [0]; [0]] ([[0]; [0]], [[1]; [1]]))
  = state (Robot [[0]; [0]; [0]] ([[-1]; [-1]], [[1]; [1]])) /\
  (get_vel_range (Robot [[0]; [0]; [0]] ([[0]; [0]], [[1]; [1]]))).2
  = (get_vel_range (Robot [[0]; [0]; [0]] ([[-1]; [-1]], [[1]; [1]]))).2 /\
  beh_diff_circle_follow Irsim.WrapToPi
    (Robot [[0]; [0]; [0]] ([[0]; [0]], [[1]; [1]]))
    (None : option (list nat)) ∅
  = beh_diff_circle_follow Irsim.WrapToPi
      (Robot [[0]; [0]; [0]] ([[-1]; [-1]], [[1]; [1]]))
      (None : option (list nat)) ∅.
Proof.
  split; [reflexivity|]. split; [reflexivity|].
  apply (beh_diff_circle_follow_ignores_min_vel Irsim.WrapToPi
           (Robot [[0]; [0]; [0]] ([[0]; [0]], [[1]; [1]]))
           (Robot [[0]; [0]; [0]] ([[-1]; [-1]], [[1]; [1]])));
    reflexivity.
Defined.

Lemma beh_diff_circle_follow_returns_witness :
  ((∅ : gmap string pyval) !! "center" = None \/
   (exists cx cy, (∅ : gmap string pyval) !! "center"
                  = Some (PyList [cx; cy]))) /\
  exists v w,
    beh_diff_circle_follow Irsim.WrapToPi
      (Robot [[0]; [0]; [0]] ([[0]; [0]], [[1]; [1]]))
      (None : option (list nat)) ∅
    = Ok [[v]; [w]].
Proof.
  split; [left; reflexivity|].
  apply (beh_diff_circle_follow_returns Irsim.WrapToPi 0 0 0 [[0]; [0]] 1 1
           (None : option (list nat)) ∅).
  left. reflexivity.
Defined.

Lemma CircleFollow_angular_speed_odd_witness :
  tangent_error Irsim.WrapToPi 5 5 0 0 (3 * PI / 2)
  = - tangent_error Irsim.WrapToPi 5 5 0 0 0 /\
  exists v w v' w',
    CircleFollow Irsim.WrapToPi [[0]; [0]; [0]] [[1]; [1]]
      (Vector [5; 5]) (PyFloat 2) = Ok [[v]; [w]] /\
    CircleFollow Irsim.WrapToPi [[0]; [0]; [3 * PI / 2]] [[1]; [1]]
      (Vector [5; 5]) (PyFloat 2) = Ok [[v']; [w']] /\
    w' = - w.
Proof.
  assert (Hopp : tangent_error Irsim.WrapToPi 5 5 0 0 (3 * PI / 2)
                 = - tangent_error Irsim.WrapToPi 5 5 0 0 0).
  { pose proof PI_RGT_0 as Hpi.
    rewrite tangent_error_origin.
    unfold tangent_error, arctan2.
    destruct (Rlt_dec 0 (5 - 0)) as [_|Hn]; [|lra].
    replace ((5 - 0) / (5 - 0)) with 1 by (field; lra).
    rewrite atan_1, WrapToPi_id; lra. }
  split; [exact Hopp|].
  apply (CircleFollow_angular_speed_odd Irsim.WrapToPi
           0 0 0 5 5 (PyFloat 2) 1 1 0 0 (3 * PI / 2) 5 5 (PyFloat 2) 1).
  exact Hopp.
Defined.

(** ** Rounding to float64 *)

Section Binary64Facts.

Import Binary64.

Lemma Rabs_le_bounds a b : Rabs a <= b -> - b <= a <= b.
Proof. unfold Rabs. destruct (Rcase_abs a); lra. Qed.

Lemma ln2_pos : 0 < ln 2.
Proof. pose proof ln_lt_2. lra. Qed.

Lemma pow2_exp k : pow2 k = exp (IZR k * ln 2).
Proof. unfold pow2. rewrite powerRZ_Rpower by lra. reflexivity. Qed.

Lemma pow2_pos k : 0 < pow2 k.
Proof. apply powerRZ_lt. lra. Qed.

Lemma pow2_add a b : pow2 (a + b) = pow2 a * pow2 b.
Proof. apply powerRZ_add. lra. Qed.


Lemma pow2_0 : pow2 0 = 1.
Proof. reflexivity. Qed.

Lemma pow2_cancel k : pow2 (- k) * pow2 k = 1.
Proof. rewrite <- pow2_add. replace (- k + k)%Z with 0%Z by lia. done. Qed.

Lemma pow2_lt a b : (a < b)%Z -> pow2 a < pow2 b.
Proof.
  intros H. rewrite !pow2_exp. apply exp_increasing.
  apply Rmult_lt_compat_r; [apply ln2_pos|]. by apply IZR_lt.
Qed.

Lemma pow2_le a b : (a <= b)%Z -> pow2 a <= pow2 b.
Proof.
  intros H. destruct (Z.eq_dec a b) as [->|]; [lra|].
  apply Rlt_le, pow2_lt. lia.
Qed.

Lemma pow2_lt_inv a b : pow2 a < pow2 b -> (a < b)%Z.
Proof.
  intros H. destruct (Z_lt_le_dec a b) as [|Hle]; [done|].
  apply pow2_le in Hle. lra.
Qed.

Lemma pow2_succ k : pow2 (k + 1) = 2 * pow2 k.
Proof. rewrite pow2_add. unfold pow2 at 2. simpl. lra. Qed.

Lemma pow2_IZR k : (0 <= k)%Z -> pow2 k = IZR (2 ^ k).
Proof.
  intros Hk. pattern k. apply natlike_ind; [done| |done].
  intros n Hn IH. rewrite Z.pow_succ_r by done.
  unfold Z.succ. rewrite pow2_succ, IH, mult_IZR. done.
Qed.

Lemma mag_bounds x : x <> 0 -> pow2 (mag x - 1) <= Rabs x < pow2 (mag x).
Proof.
  intros Hx. pose proof ln2_pos as Hl.
  assert (Ha : 0 < Rabs x) by (by apply Rabs_pos_lt).
  unfold mag. set (L := ln (Rabs x) / ln 2).
  pose proof (Zfloor_bound L) as [Hlo Hhi].
  assert (HL : ln (Rabs x) = L * ln 2) by (unfold L; field; lra).
  rewrite <- (exp_ln (Rabs x)) by done. rewrite HL, !pow2_exp.
  replace (Zfloor L + 1 - 1)%Z with (Zfloor L) by lia.
  split.
  - destruct Hlo as [Hlo|Hlo].
    + apply Rlt_le, exp_increasing. by apply Rmult_lt_compat_r.
    + rewrite Hlo. lra.
  - apply exp_increasing. rewrite plus_IZR.
    by apply Rmult_lt_compat_r.
Qed.

Lemma mag_unique x k : pow2 (k - 1) <= Rabs x < pow2 k -> mag x = k.
Proof.
  intros [Hlo Hhi]. pose proof ln2_pos as Hl.
  assert (Ha : 0 < Rabs x) by (pose proof (pow2_pos (k - 1)); lra).
  unfold mag. enough (Zfloor (ln (Rabs x) / ln 2) = (k - 1)%Z) by lia.
  apply Zfloor_eq.
  assert (Hlk : forall j, ln (pow2 j) = IZR j * ln 2)
    by (intros j; by rewrite pow2_exp, ln_exp).
  split.
  - apply (Rmult_le_reg_r (ln 2)); [done|].
    replace (ln (Rabs x) / ln 2 * ln 2) with (ln (Rabs x)) by (field; lra).
    rewrite <- Hlk. destruct Hlo as [Hlo|Hlo].
    + apply Rlt_le, ln_increasing; [apply pow2_pos|done].
    + rewrite Hlo. lra.
  - apply (Rmult_lt_reg_r (ln 2)); [done|].
    replace (ln (Rabs x) / ln 2 * ln 2) with (ln (Rabs x)) by (field; lra).
    replace (IZR (k - 1) + 1) with (IZR k) by (rewrite minus_IZR; lra).
    rewrite <- Hlk. by apply ln_increasing.
Qed.

Lemma mag_opp x : mag (- x) = mag x.
Proof. unfold mag. by rewrite Rabs_Ropp. Qed.

Lemma mag_0 : mag 0 = 1%Z.
Proof.
  unfold mag. rewrite Rabs_R0.
  assert (Hl : ln 0 = 0).
  { unfold ln. destruct (Rlt_dec 0 0) as [H|H]; [exfalso; lra|reflexivity]. }
  rewrite Hl. replace (0 / ln 2) with (IZR 0) by (unfold Rdiv; lra).
  by rewrite ZfloorZ.
Qed.

Lemma mag_le x y : x <> 0 -> Rabs x <= Rabs y -> (mag x <= mag y)%Z.
Proof.
  intros Hx Hxy.
  assert (Hy : y <> 0).
  { intros ->. rewrite Rabs_R0 in Hxy. apply Rabs_pos_lt in Hx. lra. }
  pose proof (mag_bounds x Hx) as [Hx1 _].
  pose proof (mag_bounds y Hy) as [_ Hy2].
  assert (H : pow2 (mag x - 1) < pow2 (mag y)) by lra.
  apply pow2_lt_inv in H. lia.
Qed.

Lemma rne_spec x :
  Rabs (x - IZR (rne x)) < 1 / 2 \/
  (Rabs (x - IZR (rne x)) = 1 / 2 /\ Z.even (rne x) = true).
Proof.
  unfold rne. pose proof (Zfloor_bound x) as [Hlo Hhi].
  set (f := Zfloor x) in *.
  destruct (Rlt_dec (x - IZR f) (1 / 2)) as [H1|H1].
  { left. rewrite Rabs_pos_eq; lra. }
  destruct (Rlt_dec (1 / 2) (x - IZR f)) as [H2|H2].
  { left. rewrite plus_IZR, Rabs_left; lra. }
  right. destruct (Z.even f) eqn:He.
  - split; [rewrite Rabs_pos_eq; lra|done].
  - split; [rewrite plus_IZR, Rabs_left; lra|].
    rewrite Z.even_add, He. done.
Qed.

Lemma rne_unique x n :
  Rabs (x - IZR n) < 1 / 2 \/
  (Rabs (x - IZR n) = 1 / 2 /\ Z.even n = true) ->
  rne x = n.
Proof.
  intros Hn. unfold rne. pose proof (Zfloor_bound x) as [Hlo Hhi].
  set (f := Zfloor x) in *.
  assert (Hle : Rabs (x - IZR n) <= 1 / 2) by (destruct Hn as [|[-> _]]; lra).
  apply Rabs_le_bounds in Hle as [Hl Hu].
  assert (Hnf : n = f \/ n = (f + 1)%Z).
  { assert (n < f + 2)%Z by (apply lt_IZR; rewrite plus_IZR; lra).
    assert (f - 1 < n)%Z by (apply lt_IZR; rewrite minus_IZR; lra).
    lia. }
  destruct (Rlt_dec (x - IZR f) (1 / 2)) as [H1|H1].
  { destruct Hnf as [->| ->]; [done|]. exfalso.
    rewrite plus_IZR in *.
    destruct Hn as [Hn|[Hn _]]; rewrite Rabs_left in Hn; lra. }
  destruct (Rlt_dec (1 / 2) (x - IZR f)) as [H2|H2].
  { destruct Hnf as [->| ->]; [|done]. exfalso.
    destruct Hn as [Hn|[Hn _]]; rewrite Rabs_pos_eq in Hn; lra. }
  assert (Hhalf : x - IZR f = 1 / 2) by lra.
  destruct Hnf as [->| ->].
  - destruct Hn as [Hn|[_ He]]; [rewrite Rabs_pos_eq in Hn; lra|].
    by rewrite He.
  - destruct Hn as [Hn|[_ He]].
    { rewrite plus_IZR, Rabs_left in Hn; lra. }
    rewrite Z.even_add in He. destruct (Z.even f); done.
Qed.

Lemma rne_IZR n : rne (IZR n) = n.
Proof.
  apply rne_unique. left. rewrite Rminus_diag, Rabs_R0. lra.
Qed.

Lemma rne_opp x : rne (- x) = (- rne x)%Z.
Proof.
  apply rne_unique. rewrite opp_IZR, Z.even_opp.
  replace (- x - - IZR (rne x)) with (- (x - IZR (rne x))) by lra.
  rewrite Rabs_Ropp. apply rne_spec.
Qed.

Lemma rne_near x : Rabs (x - IZR (rne x)) <= 1 / 2.
Proof. destruct (rne_spec x) as [|[-> _]]; lra. Qed.

Lemma rne_le x y : x <= y -> (rne x <= rne y)%Z.
Proof.
  intros Hxy.
  destruct (Z_le_gt_dec (rne x) (rne y)) as [|Hgt]; [done|exfalso].
  pose proof (rne_near x) as Hx. pose proof (rne_near y) as Hy.
  apply Rabs_le_bounds in Hx as [Hx1 Hx2], Hy as [Hy1 Hy2].
  assert (Hz : (rne y + 1 <= rne x)%Z) by lia.
  apply IZR_le in Hz. rewrite plus_IZR in Hz.
  assert (Heq : x = y) by lra.
  subst y. lia.
Qed.

Lemma rne_nonneg x : 0 <= x -> (0 <= rne x)%Z.
Proof. intros H. rewrite <- (rne_IZR 0). by apply rne_le. Qed.

Lemma rne_ge n x : IZR n <= x -> (n <= rne x)%Z.
Proof. intros H. rewrite <- (rne_IZR n). by apply rne_le. Qed.

Lemma rne_le_Z n x : x <= IZR n -> (rne x <= n)%Z.
Proof. intros H. rewrite <- (rne_IZR n). by apply rne_le. Qed.

Lemma ulp_exp_opp x : ulp_exp (- x) = ulp_exp x.
Proof. unfold ulp_exp. by rewrite mag_opp. Qed.

Lemma ulp_exp_min x : (-1074 <= ulp_exp x)%Z.
Proof. unfold ulp_exp. lia. Qed.

Lemma round_0 : round 0 = 0.
Proof. unfold round. rewrite Rmult_0_l, rne_IZR. lra. Qed.

Lemma round_opp x : round (- x) = - round x.
Proof.
  unfold round. rewrite ulp_exp_opp.
  replace (- x * pow2 (- ulp_exp x)) with (- (x * pow2 (- ulp_exp x))) by lra.
  rewrite rne_opp, opp_IZR. lra.
Qed.

Lemma round_nonneg x : 0 <= x -> 0 <= round x.
Proof.
  intros Hx. unfold round. apply Rmult_le_pos; [|apply Rlt_le, pow2_pos].
  apply IZR_le, rne_nonneg, Rmult_le_pos; [done|apply Rlt_le, pow2_pos].
Qed.

(** Below the leading power every number lies, a normal number at or above
    the one before. *)
Lemma ulp_exp_upper x : Rabs x < pow2 (ulp_exp x + 53).
Proof.
  unfold ulp_exp.
  replace (Z.max (mag x) (-1021) - 53 + 53)%Z with (Z.max (mag x) (-1021))
    by lia.
  destruct (Req_dec x 0) as [->|Hx].
  - rewrite Rabs_R0. apply pow2_pos.
  - pose proof (mag_bounds x Hx) as [_ Hhi].
    eapply Rlt_le_trans; [exact Hhi|]. apply pow2_le. lia.
Qed.

Lemma ulp_exp_lower x :
  x <> 0 -> (-1021 <= mag x)%Z -> pow2 (ulp_exp x + 52) <= Rabs x.
Proof.
  intros Hx Hm. unfold ulp_exp.
  replace (Z.max (mag x) (-1021) - 53 + 52)%Z with (mag x - 1)%Z by lia.
  by apply mag_bounds.
Qed.

Lemma scaled x e : x * pow2 (- e) * pow2 e = x.
Proof. rewrite Rmult_assoc, pow2_cancel. lra. Qed.

Lemma pow2_52 : pow2 52 = IZR (2 ^ 52).
Proof. by apply pow2_IZR. Qed.

Lemma pow2_53 : pow2 53 = IZR (2 ^ 53).
Proof. by apply pow2_IZR. Qed.

(** A significand of at most 53 bits with an exponent in range is a
    float: rounding leaves it alone. *)
Lemma round_repr n e :
  (-1074 <= e)%Z ->
  (Z.abs n < 2 ^ 53)%Z ->
  (2 ^ 52 <= Z.abs n)%Z \/ e = (-1074)%Z ->
  round (IZR n * pow2 e) = IZR n * pow2 e.
Proof.
  intros He Hn Hnorm.
  destruct (Z.eq_dec n 0%Z) as [->|Hn0].
  { rewrite Rmult_0_l. apply round_0. }
  set (x := IZR n * pow2 e).
  pose proof (pow2_pos e) as Hpe.
  assert (Hx0 : x <> 0).
  { unfold x. apply Rmult_integral_contrapositive_currified; [|lra].
    by apply not_0_IZR. }
  assert (Habs : Rabs x = IZR (Z.abs n) * pow2 e).
  { unfold x. rewrite Rabs_mult, <- abs_IZR, (Rabs_pos_eq (pow2 e)); lra. }
  assert (Hue : ulp_exp x = e).
  { unfold ulp_exp.
    assert (Hup : Rabs x < pow2 (e + 53)).
    { rewrite Habs, Z.add_comm, pow2_add, pow2_53.
      apply Rmult_lt_compat_r; [done|]. by apply IZR_lt. }
    destruct (Z_le_gt_dec (2 ^ 52) (Z.abs n)) as [Hbig|Hsmall].
    - assert (Hlo : pow2 (e + 53 - 1) <= Rabs x).
      { replace (e + 53 - 1)%Z with (52 + e)%Z by lia.
        rewrite Habs, pow2_add, pow2_52.
        apply Rmult_le_compat_r; [lra|]. by apply IZR_le. }
      rewrite (mag_unique x (e + 53)) by done. lia.
    - destruct Hnorm as [Hb| ->]; [lia|].
      pose proof (mag_bounds x Hx0) as [Hm _].
      assert (Hlt : Rabs x < pow2 (-1022)).
      { rewrite Habs. replace (-1022)%Z with (52 + -1074)%Z by lia.
        rewrite pow2_add, pow2_52.
        apply Rmult_lt_compat_r; [done|]. apply IZR_lt. lia. }
      assert (Hp : pow2 (mag x - 1) < pow2 (-1022)) by lra.
      apply pow2_lt_inv in Hp. lia. }
  unfold round. rewrite Hue. unfold x.
  rewrite Rmult_assoc, (Rmult_comm (pow2 e)), pow2_cancel, Rmult_1_r.
  by rewrite rne_IZR.
Qed.

(** What rounding returns: a significand of at most 2^53 at the exponent
    of the unit in the last place, of at least 2^52 for a normal number. *)
Lemma round_form x :
  let n := rne (x * pow2 (- ulp_exp x)) in
  round x = IZR n * pow2 (ulp_exp x) /\
  (Z.abs n <= 2 ^ 53)%Z /\
  (x <> 0 -> (-1021 <= mag x)%Z -> (2 ^ 52 <= Z.abs n)%Z).
Proof.
  intros n. split; [done|].
  set (e := ulp_exp x) in *.
  pose proof (pow2_pos (- e)) as Hpe.
  set (t := x * pow2 (- e)) in *.
  assert (Habs : Rabs t = Rabs x * pow2 (- e)).
  { unfold t. rewrite Rabs_mult, (Rabs_pos_eq (pow2 (- e))); lra. }
  split.
  - assert (Ht : Rabs t <= IZR (2 ^ 53)).
    { rewrite Habs, <- pow2_53.
      replace 53%Z with (e + 53 + - e)%Z by lia. rewrite pow2_add.
      apply Rmult_le_compat_r; [lra|]. apply Rlt_le, ulp_exp_upper. }
    apply Rabs_le_bounds in Ht as [Ht1 Ht2].
    assert (n <= 2 ^ 53)%Z by (by apply rne_le_Z).
    assert (- 2 ^ 53 <= n)%Z by (apply rne_ge; rewrite opp_IZR; lra).
    lia.
  - intros Hx Hm.
    assert (Ht : IZR (2 ^ 52) <= Rabs t).
    { rewrite Habs, <- pow2_52.
      replace 52%Z with (e + 52 + - e)%Z by lia. rewrite pow2_add.
      apply Rmult_le_compat_r; [lra|]. by apply ulp_exp_lower. }
    destruct (Rle_dec 0 t) as [Hpos|Hneg].
    + rewrite Rabs_pos_eq in Ht by done.
      assert (2 ^ 52 <= n)%Z by (by apply rne_ge). lia.
    + rewrite Rabs_left in Ht by lra.
      assert (n <= - 2 ^ 52)%Z by (apply rne_le_Z; rewrite opp_IZR; lra).
      lia.
Qed.

Lemma round_idem x : round (round x) = round x.
Proof.
  destruct (round_form x) as (Hr & Hn & Hbig).
  set (n := rne (x * pow2 (- ulp_exp x))) in *.
  set (e := ulp_exp x) in *.
  pose proof (ulp_exp_min x) as He. fold e in He.
  rewrite Hr.
  destruct (Z.eq_dec (Z.abs n) (2 ^ 53)%Z) as [Htop|Htop].
  - (* the significand overflows into the next binade *)
    assert (Hn2 : n = (2 * (n / 2))%Z).
    { apply Z.div_exact; [done|].
      destruct (Z.abs_eq_or_opp n) as [H|H]; rewrite H in Htop.
      - by rewrite Htop.
      - replace n with (- (2 ^ 53))%Z by lia. done. }
    assert (Hhalf : Z.abs (n / 2) = (2 ^ 52)%Z) by lia.
    replace (IZR n * pow2 e) with (IZR (n / 2) * pow2 (e + 1)).
    + apply round_repr; lia.
    + rewrite Hn2 at 2. rewrite mult_IZR, pow2_succ. lra.
  - destruct (Req_dec x 0) as [->|Hx].
    { unfold n. rewrite Rmult_0_l, rne_IZR, Rmult_0_l. apply round_0. }
    apply round_repr; [done|lia|].
    destruct (Z_le_gt_dec (-1021) (mag x)) as [Hm|Hm].
    + left. by apply Hbig.
    + right. unfold e, ulp_exp. lia.
Qed.

Lemma round_upper x : Rabs (round x) <= pow2 (ulp_exp x + 53).
Proof.
  destruct (round_form x) as (-> & Hn & _).
  pose proof (pow2_pos (ulp_exp x)) as Hp.
  rewrite Rabs_mult, (Rabs_pos_eq (pow2 _)), <- abs_IZR by lra.
  rewrite Z.add_comm, pow2_add, pow2_53.
  apply Rmult_le_compat_r; [lra|]. by apply IZR_le.
Qed.

Lemma round_lower x :
  0 < x -> (-1021 <= mag x)%Z -> pow2 (mag x - 1) <= round x.
Proof.
  intros Hx Hm.
  pose proof (pow2_pos (ulp_exp x)) as Hp.
  pose proof (pow2_pos (- ulp_exp x)) as Hp'.
  pose proof (ulp_exp_lower x ltac:(lra) Hm) as Hlo.
  rewrite Rabs_pos_eq in Hlo by lra.
  replace (mag x - 1)%Z with (52 + ulp_exp x)%Z by (unfold ulp_exp; lia).
  rewrite pow2_add, pow2_52. unfold round.
  apply Rmult_le_compat_r; [lra|]. apply IZR_le, rne_ge.
  rewrite <- pow2_52.
  replace 52%Z with (ulp_exp x + 52 + - ulp_exp x)%Z by lia.
  rewrite pow2_add. apply Rmult_le_compat_r; lra.
Qed.

Lemma round_le_pos x y : 0 < x -> x <= y -> round x <= round y.
Proof.
  intros Hx Hxy.
  assert (Hmag : (mag x <= mag y)%Z).
  { apply mag_le; [lra|]. rewrite !Rabs_pos_eq; lra. }
  destruct (Z.eq_dec (ulp_exp x) (ulp_exp y)) as [He|He].
  - unfold round. rewrite He.
    pose proof (pow2_pos (ulp_exp y)). pose proof (pow2_pos (- ulp_exp y)).
    apply Rmult_le_compat_r; [lra|]. apply IZR_le, rne_le.
    apply Rmult_le_compat_r; lra.
  - assert (Hlt : (ulp_exp x < ulp_exp y)%Z) by (unfold ulp_exp in *; lia).
    assert (Hm : (-1021 <= mag y)%Z) by (unfold ulp_exp in *; lia).
    pose proof (round_lower y ltac:(lra) Hm) as Hy.
    pose proof (round_upper x) as Hu.
    apply Rabs_le_bounds in Hu as [_ Hu].
    assert (Hp : pow2 (ulp_exp x + 53) <= pow2 (mag y - 1)).
    { apply pow2_le. unfold ulp_exp in *. lia. }
    lra.
Qed.

(** Rounding keeps the order. *)
Lemma round_le x y : x <= y -> round x <= round y.
Proof.
  intros Hxy.
  destruct (Rlt_le_dec 0 x) as [Hx|Hx]; [by apply round_le_pos|].
  destruct (Rlt_le_dec y 0) as [Hy|Hy].
  - assert (H : round (- y) <= round (- x)) by (apply round_le_pos; lra).
    rewrite !round_opp in H. lra.
  - pose proof (round_nonneg y Hy).
    pose proof (round_nonneg (- x) ltac:(lra)) as Hn.
    rewrite round_opp in Hn. lra.
Qed.

(** Halving is exact above the subnormal numbers. *)
Lemma round_half x : 1 <= Rabs x -> round (x / 2) = round x / 2.
Proof.
  intros Hx.
  assert (Hx0 : x <> 0) by (intros ->; rewrite Rabs_R0 in Hx; lra).
  pose proof (mag_bounds x Hx0) as [Hlo Hhi].
  assert (Hm : (1 <= mag x)%Z).
  { assert (H : pow2 0 < pow2 (mag x)) by (rewrite pow2_0; lra).
    apply pow2_lt_inv in H. lia. }
  assert (Hmh : mag (x / 2) = (mag x - 1)%Z).
  { apply mag_unique. unfold Rdiv. rewrite Rabs_mult, (Rabs_pos_eq (/ 2)) by lra.
    assert (H1 : pow2 (mag x - 1) = 2 * pow2 (mag x - 1 - 1))
      by (rewrite <- pow2_succ; f_equal; lia).
    assert (H2 : pow2 (mag x) = 2 * pow2 (mag x - 1))
      by (rewrite <- pow2_succ; f_equal; lia).
    lra. }
  assert (He : ulp_exp (x / 2) = (ulp_exp x - 1)%Z)
    by (unfold ulp_exp; rewrite Hmh; lia).
  unfold round. rewrite He.
  replace (x / 2 * pow2 (- (ulp_exp x - 1))) with (x * pow2 (- ulp_exp x)).
  - assert (H1 : pow2 (ulp_exp x) = 2 * pow2 (ulp_exp x - 1))
      by (rewrite <- pow2_succ; f_equal; lia).
    rewrite H1. lra.
  - assert (H1 : pow2 (- (ulp_exp x - 1)) = 2 * pow2 (- ulp_exp x))
      by (rewrite <- pow2_succ; f_equal; lia).
    rewrite H1. lra.
Qed.



Lemma round_pow2 k : (-1074 <= k)%Z -> round (pow2 k) = pow2 k.
Proof.
  intros Hk. destruct (Z_le_gt_dec (-1022) k) as [Hn|Hs].
  - replace (pow2 k) with (IZR (2 ^ 52) * pow2 (k - 52)).
    + apply round_repr; lia.
    + rewrite <- pow2_52, <- pow2_add. f_equal. lia.
  - replace (pow2 k) with (IZR (2 ^ (k + 1074)) * pow2 (-1074)).
    + apply round_repr; [lia| |by right].
      rewrite Z.abs_eq by (apply Z.pow_nonneg; lia).
      apply Z.pow_lt_mono_r; lia.
    + rewrite <- pow2_IZR, <- pow2_add by lia. f_equal. lia.
Qed.

Lemma round_1 : round 1 = 1.
Proof. rewrite <- pow2_0. by apply round_pow2. Qed.


End Binary64Facts.

(** ** The control law in float64 *)


Lemma tanh_1 : 1 / 2 <= tanh 1.
Proof.
  rewrite tanh_exp. pose proof (exp_ineq1 1 ltac:(lra)) as He.
  set (E := exp 1 * exp 1).
  assert (HE : 4 < E) by (unfold E; nra).
  apply (Rmult_le_reg_r (E + 1)); [lra|].
  replace ((E - 1) / (E + 1) * (E + 1)) with (E - 1) by (field; lra).
  lra.
Qed.

Section Float64Facts.

Import Binary64 Float64.

Lemma PI_gt_3 : 3 < PI.
Proof. pose proof PI2_3_2. lra. Qed.

(** [np.pi / 2] is exact, and is the float nearest to a quarter turn. *)
Lemma np_pi_ge_1 : 1 <= np_pi.
Proof.
  unfold np_pi. rewrite <- round_1. apply round_le.
  pose proof PI_gt_3. lra.
Qed.

Lemma np_pi_le_4 : np_pi <= 4.
Proof.
  unfold np_pi. replace 4 with (round (pow2 2)).
  - apply round_le. replace (pow2 2) with 4 by (unfold pow2; simpl; lra).
    apply PI_4.
  - rewrite round_pow2 by lia. unfold pow2. simpl. lra.
Qed.

Lemma half_pi_exact : round (np_pi / 2) = np_pi / 2.
Proof.
  pose proof np_pi_ge_1.
  rewrite round_half by (rewrite Rabs_pos_eq; lra).
  unfold np_pi. by rewrite round_idem.
Qed.




(** The value of a difference is the rounded difference of the values. *)
Lemma val_sub a b : val (sub a b) = round (val a - val b).
Proof.
  unfold sub, of_exact.
  destruct (Req_dec_T (val a) (val b)) as [Heq|_].
  - rewrite Heq, Rminus_diag, round_0. by destruct a, b.
  - destruct (Req_dec_T (round (val a - val b)) 0) as [->|]; [|done].
    by destruct (Rlt_dec (val a - val b) 0).
Qed.

(** The difference of two equal floats is [-0.0] when the first is [-0.0]
    and the second [+0.0], and [+0.0] otherwise. *)
Lemma sub_equal a b :
  val a = val b ->
  (a = NegZero /\ b <> NegZero -> sub a b = NegZero) /\
  (a <> NegZero \/ b = NegZero -> sub a b = Num 0).
Proof.
  intros Heq. unfold sub. destruct (Req_dec_T (val a) (val b)); [|done].
  destruct a, b; (split; [intros [? ?]|intros [?|?]]); congruence.
Qed.

Section WithWrap.

Variable WrapToPi : R -> R.

Lemma CircleFollow64_eval x y theta vmax wmax cx cy radius :
  Float64.CircleFollow WrapToPi [[x]; [y]; [theta]] [[vmax]; [wmax]]
    (Vector [cx; cy]) radius
  = Ok [[py_max (round 0.1) (round (val vmax * round 0.5))];
        [round (val wmax
                * round (tanh (round
                    (2 * tangent_error WrapToPi cx cy x y theta))))]].
Proof. reflexivity. Qed.




(** C9 (amended).  In float64, at the singular pose, the robot on the
    centre, nothing fails: the vector to the centre is a pair of zeros, its
    norm is zero, and [CircleFollow] returns a command.  Unless the x
    coordinate of the centre is [-0.0] and that of the robot [+0.0], the x
    component of the vector is [+0.0], [arctan2] gives a zero, the tangent
    angle is [np.pi / 2], and the command is the one built from the wrapped
    [np.pi / 2 - theta]. *)
Theorem CircleFollow64_at_center cx cy x y theta radius vmax wmax :
  val cx = val x ->
  val cy = val y ->
  exists vx vy,
    broadcast_sub (Vector [cx; cy]) [x; y] = Ok [vx; vy] /\
    val vx = 0 /\
    val vy = 0 /\
    norm [vx; vy] = 0 /\
    (exists v w,
       Float64.CircleFollow WrapToPi [[x]; [y]; [theta]] [[vmax]; [wmax]]
         (Vector [cx; cy]) radius = Ok [[v]; [w]]) /\
    (cx <> NegZero \/ x = NegZero ->
     vx = Num 0 /\
     round (arctan2 vy vx) = 0 /\
     tangential_angle cx cy x y = round (np_pi / 2) /\
     Float64.CircleFollow WrapToPi [[x]; [y]; [theta]] [[vmax]; [wmax]]
       (Vector [cx; cy]) radius
     = Ok [[py_max (round 0.1) (round (val vmax * round 0.5))];
           [round (val wmax
                   * round (tanh (round
                       (2 * WrapToPi (round (round (np_pi / 2)
                                             - val theta))))))]]).
Proof.
  intros Hx Hy.
  assert (Hvx : val (sub cx x) = 0)
    by (by rewrite val_sub, Hx, Rminus_diag, round_0).
  assert (Hvy : val (sub cy y) = 0)
    by (by rewrite val_sub, Hy, Rminus_diag, round_0).
  exists (sub cx x), (sub cy y).
  split; [done|]. split; [done|]. split; [done|].
  split.
  { unfold norm. cbn [foldr]. rewrite Hvx, Hvy.
    repeat rewrite ?Rmult_0_l, ?Rplus_0_r, ?round_0.
    by rewrite sqrt_0, round_0. }
  split; [eexists _, _; apply CircleFollow64_eval|].
  intros Hsign.
  assert (Hpz : sub cx x = Num 0) by (by apply sub_equal).
  assert (Hat : arctan2 (sub cy y) (Num 0) = 0).
  { unfold arctan2. rewrite Hvy. cbn [val].
    destruct (Rlt_dec 0 0) as [H|_]; [lra|done]. }
  assert (Htan : tangential_angle cx cy x y = round (np_pi / 2)).
  { unfold tangential_angle.
    by rewrite Hpz, Hat, round_0, Rplus_0_l, round_idem. }
  split; [done|]. rewrite Hpz.
  split; [by rewrite Hat, round_0|]. split; [done|].
  rewrite CircleFollow64_eval. unfold tangent_error. by rewrite Htan.
Qed.


End WithWrap.

End Float64Facts.

(** ** Float64 on concrete calls *)

Section Float64Calls.

Import Binary64 Float64.

Lemma pow2_m1 : pow2 (-1) = 1 / 2.
Proof. unfold pow2. simpl. lra. Qed.







Lemma sub_negzero : sub NegZero (Num 0) = NegZero.
Proof. unfold sub. cbn [val]. destruct (Req_dec_T 0 0); done. Qed.

Lemma arctan2_negzero : arctan2 NegZero NegZero = - PI.
Proof.
  unfold arctan2. cbn [val signbit].
  destruct (Rlt_dec 0 0) as [H|_]; [lra|done].
Qed.

(** C9, the claim as stated fails in float64.  The robot is at
    [(0.0, 0.0)] and the centre is [[-0.0, -0.0]], the same point.  The
    vector to the centre is [(-0.0, -0.0)], [arctan2] of it is [-pi], the
    tangent angle is [-np.pi / 2] and not [np.pi / 2], and the robot, with
    heading 0, is told to turn right. *)
Lemma CircleFollow64_negative_zero_center :
  val NegZero = val (Num 0) /\
  broadcast_sub (Vector [NegZero; NegZero]) [Num 0; Num 0]
  = Ok [NegZero; NegZero] /\
  round (arctan2 NegZero NegZero) = - np_pi /\
  tangential_angle NegZero NegZero (Num 0) (Num 0) = - round (np_pi / 2) /\
  0 < round (np_pi / 2) /\
  exists v w,
    Float64.CircleFollow Irsim.WrapToPi
      [[Num 0]; [Num 0]; [Num 0]] [[Num 1]; [Num 1]]
      (Vector [NegZero; NegZero]) (PyFloat 2) = Ok [[v]; [w]] /\
    w < 0.
Proof.
  pose proof np_pi_ge_1 as Hpi1. pose proof np_pi_le_4 as Hpi4.
  pose proof PI_gt_3 as Hpi3.
  assert (Hat : round (arctan2 NegZero NegZero) = - np_pi)
    by (by rewrite arctan2_negzero, round_opp).
  assert (Htan : tangential_angle NegZero NegZero (Num 0) (Num 0)
                 = - round (np_pi / 2)).
  { unfold tangential_angle. rewrite sub_negzero, Hat, half_pi_exact.
    replace (- np_pi + np_pi / 2) with (- (np_pi / 2)) by lra.
    by rewrite round_opp, half_pi_exact. }
  split; [done|]. split; [cbn; by rewrite sub_negzero|].
  split; [done|]. split; [done|].
  split; [rewrite half_pi_exact; lra|].
  eexists _, _. split; [apply CircleFollow64_eval|].
  unfold tangent_error. rewrite Htan, half_pi_exact. cbn [val].
  replace (- (np_pi / 2) - 0) with (- (np_pi / 2)) by lra.
  rewrite round_opp, half_pi_exact, WrapToPi_id by lra.
  replace (2 * - (np_pi / 2)) with (- np_pi) by lra.
  unfold np_pi at 1. rewrite round_opp, round_idem. fold np_pi.
  rewrite tanh_opp, round_opp, Rmult_1_l, round_opp, round_idem.
  assert (Ht : 1 / 2 <= round (tanh np_pi)).
  { rewrite <- pow2_m1, <- (round_pow2 (-1)), pow2_m1 by lia.
    apply round_le. pose proof tanh_1 as H1.
    destruct Hpi1 as [Hlt| <-]; [|done].
    apply tanh_increasing in Hlt. lra. }
  lra.
Qed.


(** C9 (amended) on a concrete call: robot and centre at [(5, 5)]. *)
Lemma CircleFollow64_at_center_witness :
  val (Num 5) = val (Num 5) /\
  (exists v w,
     Float64.CircleFollow Irsim.WrapToPi
       [[Num 5]; [Num 5]; [Num 0]] [[Num 1]; [Num 1]]
       (Vector [Num 5; Num 5]) (PyFloat 2) = Ok [[v]; [w]]) /\
  tangential_angle (Num 5) (Num 5) (Num 5) (Num 5) = round (np_pi / 2).
Proof.
  split; [reflexivity|].
  destruct (CircleFollow64_at_center Irsim.WrapToPi
              (Num 5) (Num 5) (Num 5) (Num 5) (Num 0) (PyFloat 2)
              (Num 1) (Num 1) eq_refl eq_refl)
    as (vx & vy & _ & _ & _ & _ & Hcall & Hangle).
  split; [exact Hcall|].
  assert (Hs : Num 5 <> NegZero \/ Num 5 = NegZero) by (left; discriminate).
  destruct (Hangle Hs) as (_ & _ & Htan & _).
  exact Htan.
Defined.


End Float64Calls.
